(** * ECDSA over secp256k1: DER codec, verification and signing

    A shallow embedding of [secp256k1/src/ecdsa_impl.h] and the properties
    of its DER length decoder, DER integer parser, signature parser,
    signature serializer, verifier and signer.

    Conventions of the embedding.
    - An [unsigned char] is a [Byte.byte]; its numeric value is [byte_val].
    - A read cursor (the pointer held in [sigp], with the end [sigend]) into a
      caller-owned buffer is the list of the bytes from the cursor up to the
      end: the pointer difference to [sigend] is the length of the list, the
      byte under the cursor its head, advancing the cursor its tail.  Every
      function that advances a cursor returns the advanced cursor, on the
      failing paths too.
    - [int] is 32 bits wide and [size_t] 64 bits wide (LP64); arithmetic in
      [size_t] wraps, and the conversion from [size_t] to [int] keeps the low
      32 bits.
    - An output parameter is an argument holding the old value and a component
      of the result holding the new one. *)

From Stdlib Require Import ZArith Zpow_facts List Bool Lia Strings.Byte.
Import ListNotations.
Local Open Scope Z_scope.

(** ** Machine integers and bytes *)

Definition size_t_bits : Z := 64.
Definition int_bits : Z := 32.
Definition sizeof_size_t : Z := 8.

(** Wrap-around of unsigned arithmetic in [size_t]. *)
Definition size_t_wrap (z : Z) : Z := z mod 2 ^ size_t_bits.

(** The conversion performed by [return ret;] in a function returning [int]
    when [ret] is a [size_t]. *)
Definition int_of_size_t (z : Z) : Z :=
  (z + 2 ^ (int_bits - 1)) mod 2 ^ int_bits - 2 ^ (int_bits - 1).

Definition byte_val (b : byte) : Z := Z.of_N (Byte.to_N b).

Definition byte_of_Z (z : Z) : byte :=
  match Byte.of_N (Z.to_N (z mod 256)) with
  | Some b => b
  | None => x00
  end.

(** The byte [i] places after the cursor.  The reads of the source are
    guarded by length tests and stay inside the buffer, so the default is
    never observed. *)
Definition peek (i : nat) (sig : list byte) : Z := byte_val (nth i sig x00).

(** Big-endian value of a byte string. *)
Fixpoint be_acc (acc : Z) (l : list byte) : Z :=
  match l with
  | [] => acc
  | b :: l' => be_acc (acc * 256 + byte_val b) l'
  end.

Definition be_decode (l : list byte) : Z := be_acc 0 l.

(** Big-endian encoding of [z] on [len] bytes (the low [8 * len] bits). *)
Fixpoint be_encode (len : nat) (z : Z) : list byte :=
  match len with
  | O => []
  | S k => byte_of_Z (z / 256 ^ Z.of_nat k) :: be_encode k z
  end.

(** [memcpy(dst + off, src, len)] on a buffer held as a list.  At every call
    of the source [src] holds at least [len] bytes; bytes that would fall
    beyond the end of [dst] are not stored. *)
Definition memcpy (dst : list byte) (off : nat) (src : list byte) (len : nat)
  : list byte :=
  firstn (length dst)
    (firstn off dst ++ firstn len src ++ skipn (off + len) dst).

(** [buf[i] = v]. *)
Definition store (buf : list byte) (i : nat) (v : Z) : list byte :=
  memcpy buf i [byte_of_Z v] 1.

(** ** Scalars: integers modulo the group order *)

Module Scalar.

(** The group order, as spelled in [rustsecp256k1_v0_1_0_ecdsa_const_order_as_fe]. *)
Definition n : Z :=
  0xFFFFFFFFFFFFFFFFFFFFFFFFFFFFFFFEBAAEDCE6AF48A03BBFD25E8CD0364141.

(** A scalar is held by its canonical representative in [0, n). *)
Definition scalar := Z.

Definition wf (a : scalar) : Prop := 0 <= a < n.

(** Modular exponentiation by squaring. *)
Fixpoint powmod_pos (a : Z) (e : positive) (m : Z) : Z :=
  match e with
  | xH => a mod m
  | xO e' => let h := powmod_pos a e' m in (h * h) mod m
  | xI e' => let h := powmod_pos a e' m in (h * h mod m * a) mod m
  end.

(** Modelled from the spec: [scalar.h] is not part of the sources; the spec
    describes the scalar as an integer mod n with big-endian 32-byte
    (de)serialization, where the overflow flag signals a raw value >= n,
    which is reduced mod n. *)
Definition set_b32 (b32 : list byte) : scalar * bool :=
  let v := be_decode b32 in (v mod n, n <=? v).

(** Modelled from the spec: the canonical 32-byte big-endian encoding. *)
Definition get_b32 (a : scalar) : list byte := be_encode 32 a.

(** Modelled from the spec: set a scalar from a small unsigned integer. *)
Definition set_int (v : Z) : scalar := v mod n.

(** Modelled from the spec: zero test. *)
Definition is_zero (a : scalar) : bool := a =? 0.

(** Modelled from the spec: compare-to-half-range, s > n/2. *)
Definition is_high (a : scalar) : bool := n / 2 <? a.

(** Modelled from the spec: negation, addition and multiplication mod n. *)
Definition negate (a : scalar) : scalar := (n - a) mod n.
Definition add (a b : scalar) : scalar := (a + b) mod n.
Definition mul (a b : scalar) : scalar := (a * b) mod n.

(** Modelled from the spec: the modular inverse, computed as a^(n-2) mod n
    (the order is prime); the inverse of zero is zero. *)
Definition inverse (a : scalar) : scalar := powmod_pos a (Z.to_pos (n - 2)) n.

(** Modelled from the spec: the variable-time inverse computes the same
    value. *)
Definition inverse_var (a : scalar) : scalar := inverse a.

End Scalar.

(** ** DER length decoder *)

(** The loop [while (lenleft > 0)] of [der_read_len] followed by the final
    minimality test; [ret] is the accumulated [size_t]. *)
Fixpoint der_read_len_loop (lenleft : nat) (ret : Z) (sig : list byte)
  : Z * list byte :=
  match lenleft with
  | O => if ret <? 128 then (-1, sig) else (int_of_size_t ret, sig)
  | S lenleft' =>
      let ret' := Z.lor (size_t_wrap (Z.shiftl ret 8)) (peek 0 sig) in
      if size_t_wrap (ret' + Z.of_nat lenleft) >? Z.of_nat (length sig)
      then (-1, sig)
      else der_read_len_loop lenleft' ret' (tl sig)
  end.

(** [rustsecp256k1_v0_1_0_der_read_len]: the returned [int] and the cursor. *)
Definition der_read_len (sig : list byte) : Z * list byte :=
  match sig with
  | [] => (-1, sig)
  | c :: sig1 =>
      let b1 := byte_val c in
      if b1 =? 0xFF then (-1, sig1)
      else if Z.land b1 0x80 =? 0 then (b1, sig1)
      else if b1 =? 0x80 then (-1, sig1)
      else
        let lenleft := Z.land b1 0x7F in
        if lenleft >? Z.of_nat (length sig1) then (-1, sig1)
        else if peek 0 sig1 =? 0 then (-1, sig1)
        else if lenleft >? sizeof_size_t then (-1, sig1)
        else der_read_len_loop (Z.to_nat lenleft) 0 sig1
  end.

(** ** DER integer parser *)

(** The loop [while (rlen > 0 && **sig == 0)] that skips leading zero bytes. *)
Fixpoint skip_zeros (rlen : nat) (sig : list byte) : nat * list byte :=
  match rlen with
  | O => (O, sig)
  | S rlen' =>
      if peek 0 sig =? 0 then skip_zeros rlen' (tl sig) else (rlen, sig)
  end.

(** [rustsecp256k1_v0_1_0_der_parse_integer]: the returned flag, the scalar
    held by [r] on return (the argument [r] is what it held on entry) and the
    cursor. *)
Definition der_parse_integer (r : Scalar.scalar) (sig : list byte)
  : Z * Scalar.scalar * list byte :=
  let ra := repeat x00 32 in
  if (length sig =? 0)%nat || negb (peek 0 sig =? 0x02) then (0, r, sig)
  else
    let sig := tl sig in
    let '(rlen, sig) := der_read_len sig in
    if (rlen <=? 0) || (rlen >? Z.of_nat (length sig)) then (0, r, sig)
    else if (peek 0 sig =? 0x00) && (rlen >? 1)
            && (Z.land (peek 1 sig) 0x80 =? 0x00) then (0, r, sig)
    else if (peek 0 sig =? 0xFF) && (rlen >? 1)
            && (Z.land (peek 1 sig) 0x80 =? 0x80) then (0, r, sig)
    else
      let overflow := Z.land (peek 0 sig) 0x80 =? 0x80 in
      let '(rlen, sig) := skip_zeros (Z.to_nat rlen) sig in
      let overflow := overflow || (32 <? rlen)%nat in
      let '(r, overflow) :=
        if negb overflow
        then Scalar.set_b32 (memcpy ra (32 - rlen) sig rlen)
        else (r, overflow) in
      let r := if overflow then Scalar.set_int 0 else r in
      (1, r, skipn rlen sig).

(** ** Signature parser and serializer *)

(** [rustsecp256k1_v0_1_0_ecdsa_sig_parse]; [sig] holds the [size] bytes of
    the input.  The result is the returned flag and the scalars held by [rr]
    and [rs] on return. *)
Definition ecdsa_sig_parse (rr rs : Scalar.scalar) (sig : list byte)
  : Z * Scalar.scalar * Scalar.scalar :=
  if (length sig =? 0)%nat || negb (peek 0 sig =? 0x30) then (0, rr, rs)
  else
    let sig := tl sig in
    let '(rlen, sig) := der_read_len sig in
    if (rlen <? 0) || (rlen >? Z.of_nat (length sig)) then (0, rr, rs)
    else if negb (rlen =? Z.of_nat (length sig)) then (0, rr, rs)
    else
      let '(ok, rr, sig) := der_parse_integer rr sig in
      if ok =? 0 then (0, rr, rs)
      else
        let '(ok, rs, sig) := der_parse_integer rs sig in
        if ok =? 0 then (0, rr, rs)
        else if negb (length sig =? 0)%nat then (0, rr, rs)
        else (1, rr, rs).

(** The loop [while (lenR > 1 && rp[0] == 0 && rp[1] < 0x80)] that strips
    redundant leading zero bytes. *)
Fixpoint der_strip (lenR : nat) (rp : list byte) : nat * list byte :=
  match lenR with
  | S (S _ as lenR') =>
      if (peek 0 rp =? 0) && (peek 1 rp <? 0x80)
      then der_strip lenR' (tl rp)
      else (lenR, rp)
  | _ => (lenR, rp)
  end.

(** [rustsecp256k1_v0_1_0_ecdsa_sig_serialize]; [sig] is the output buffer
    and [size] the value held by the size parameter on entry.  The result is
    the returned flag, the buffer and the value held by the size parameter on
    return. *)
Definition ecdsa_sig_serialize (sig : list byte) (size : Z)
    (ar as_ : Scalar.scalar) : Z * list byte * Z :=
  let r := memcpy (repeat x00 33) 1 (Scalar.get_b32 ar) 32 in
  let s := memcpy (repeat x00 33) 1 (Scalar.get_b32 as_) 32 in
  let '(lenR, rp) := der_strip 33 r in
  let '(lenS, sp) := der_strip 33 s in
  let required := size_t_wrap (6 + Z.of_nat lenS + Z.of_nat lenR) in
  if size <? required then (0, sig, required)
  else
    let sig := store sig 0 0x30 in
    let sig := store sig 1 (4 + Z.of_nat lenS + Z.of_nat lenR) in
    let sig := store sig 2 0x02 in
    let sig := store sig 3 (Z.of_nat lenR) in
    let sig := memcpy sig 4 rp lenR in
    let sig := store sig (4 + lenR) 0x02 in
    let sig := store sig (5 + lenR) (Z.of_nat lenS) in
    let sig := memcpy sig (lenR + 6) sp lenS in
    (1, sig, required).

(** ** Field elements and points *)

Module Field.

(** The field prime, as spelled in the comment above
    [rustsecp256k1_v0_1_0_ecdsa_const_p_minus_order]. *)
Definition p : Z :=
  0xFFFFFFFFFFFFFFFFFFFFFFFFFFFFFFFFFFFFFFFFFFFFFFFFFFFFFFFEFFFFFC2F.

(** A field element is held by an integer representative, which need not be
    the canonical one (addition does not reduce). *)
Definition fe := Z.

(** Modelled from the spec: [SECP256K1_FE_CONST] is not part of the sources;
    it builds a field element from eight 32-bit words, most significant
    first. *)
Definition FE_CONST (d7 d6 d5 d4 d3 d2 d1 d0 : Z) : fe :=
  ((((((d7 * 2 ^ 32 + d6) * 2 ^ 32 + d5) * 2 ^ 32 + d4)
    * 2 ^ 32 + d3) * 2 ^ 32 + d2) * 2 ^ 32 + d1) * 2 ^ 32 + d0.

(** Modelled from the spec: field arithmetic is an external collaborator
    offering add, normalize (canonical representative), comparison, parity
    and big-endian byte (de)serialization.  First the two conversions
    between a field element and its 32 big-endian bytes. *)
Definition fe_set_b32 (b32 : list byte) : fe := be_decode b32.
Definition fe_get_b32 (a : fe) : list byte := be_encode 32 a.

(** Modelled from the spec: the canonical representative. *)
Definition fe_normalize (a : fe) : fe := a mod p.

(** Modelled from the spec: the parity of a normalized field element. *)
Definition fe_is_odd (a : fe) : bool := Z.odd a.

(** Modelled from the spec: addition, which leaves the sum unreduced. *)
Definition fe_add (a b : fe) : fe := a + b.

(** Modelled from the spec: three-way comparison of normalized field
    elements. *)
Definition fe_cmp_var (a b : fe) : Z :=
  match a ?= b with Lt => -1 | Eq => 0 | Gt => 1 end.

End Field.

Module Group.
Import Field.

(** Modelled from the spec: a point is an affine (x, y) pair over the field,
    or a Jacobian projective (X, Y, Z) triple whose infinity is represented
    by Z = 0. *)
Record ge : Type := mk_ge { ge_x : fe; ge_y : fe }.
Record gej : Type := mk_gej { gej_x : fe; gej_y : fe; gej_z : fe }.

(** Modelled from the spec: the affine-to-Jacobian conversion. *)
Definition gej_set_ge (a : ge) : gej := mk_gej (ge_x a) (ge_y a) 1.

(** Modelled from the spec: the infinity test, Z = 0. *)
Definition gej_is_infinity (a : gej) : bool := gej_z a mod p =? 0.

(** Modelled from the spec: the x-coordinate-only equality test
    x * a.z^2 = a.x (mod p). *)
Definition gej_eq_x_var (x : fe) (a : gej) : bool :=
  (x * (gej_z a * gej_z a)) mod p =? gej_x a mod p.

End Group.

(** ** Curve constants *)

Definition ecdsa_const_order_as_fe : Field.fe :=
  Field.FE_CONST
    0xFFFFFFFF 0xFFFFFFFF 0xFFFFFFFF 0xFFFFFFFE
    0xBAAEDCE6 0xAF48A03B 0xBFD25E8C 0xD0364141.

Definition ecdsa_const_p_minus_order : Field.fe :=
  Field.FE_CONST 0 0 0 1 0x45512319 0x50B75FC4 0x402DA172 0x2FC9BAEE.

(** ** Verification and signing *)

(** What [ecdsa_sig_sign] leaves behind: the returned flag and the values
    held by [sigr], [sigs] and (when the pointer is not null) [recid]. *)
Record sign_result : Type := mk_sign_result {
  sign_ret : Z;
  sign_sigr : Scalar.scalar;
  sign_sigs : Scalar.scalar;
  sign_recid : option Z
}.

Section Ecdsa.
Import Field Group.

(** The point multiplications and the Jacobian-to-affine conversion are
    external collaborators: [ecmult ctx a na ng] computes na*a + ng*G and
    [ecmult_gen ctx gn] computes gn*G. *)
Variables ecmult_context ecmult_gen_context : Type.
Variable ecmult :
  ecmult_context -> gej -> Scalar.scalar -> Scalar.scalar -> gej.
Variable ecmult_gen : ecmult_gen_context -> Scalar.scalar -> gej.
Variable ge_set_gej : gej -> ge.

(** [rustsecp256k1_v0_1_0_ecdsa_sig_verify], the production path (the one
    compiled when [EXHAUSTIVE_TEST_ORDER] is not defined). *)
Definition ecdsa_sig_verify (ctx : ecmult_context)
    (sigr sigs : Scalar.scalar) (pubkey : ge) (message : Scalar.scalar) : Z :=
  if Scalar.is_zero sigr || Scalar.is_zero sigs then 0
  else
    let sn := Scalar.inverse_var sigs in
    let u1 := Scalar.mul sn message in
    let u2 := Scalar.mul sn sigr in
    let pubkeyj := gej_set_ge pubkey in
    let pr := ecmult ctx pubkeyj u2 u1 in
    if gej_is_infinity pr then 0
    else
      let c := Scalar.get_b32 sigr in
      let xr := fe_set_b32 c in
      if gej_eq_x_var xr pr then 1
      else if fe_cmp_var xr ecdsa_const_p_minus_order >=? 0 then 0
      else
        let xr := fe_add xr ecdsa_const_order_as_fe in
        if gej_eq_x_var xr pr then 1 else 0.

(** Modelled from the spec: the macro [VERIFY_CHECK] is not part of the
    sources; the spec describes it as an assertion that terminates the
    program on violation ([None]).  The flag [VERIFY] tells whether the
    build has assertions; without them the condition has no effect. *)
Definition VERIFY_CHECK {A : Type} (VERIFY cond : bool) (k : option A)
  : option A :=
  if VERIFY && negb cond then None else k.

(** [rustsecp256k1_v0_1_0_ecdsa_sig_sign].  [sigr0], [sigs0] are the values
    held by the output scalars on entry; [recid] is [None] for a null
    pointer and otherwise the value held on entry.  The calls that wipe the
    local temporaries before returning leave no trace in the result. *)
Definition ecdsa_sig_sign (VERIFY : bool) (ctx : ecmult_gen_context)
    (sigr0 sigs0 : Scalar.scalar)
    (seckey message nonce : Scalar.scalar) (recid : option Z)
  : option sign_result :=
  let rp := ecmult_gen ctx nonce in
  let r := ge_set_gej rp in
  let r := mk_ge (fe_normalize (ge_x r)) (ge_y r) in
  let r := mk_ge (ge_x r) (fe_normalize (ge_y r)) in
  let b := fe_get_b32 (ge_x r) in
  let '(sigr, overflow) := Scalar.set_b32 b in
  VERIFY_CHECK VERIFY (negb (Scalar.is_zero sigr))
  (VERIFY_CHECK VERIFY (negb overflow)
  (let recid :=
     match recid with
     | Some _ =>
         Some (Z.lor (if overflow then 2 else 0)
                     (if fe_is_odd (ge_y r) then 1 else 0))
     | None => None
     end in
   let n := Scalar.mul sigr seckey in
   let n := Scalar.add n message in
   let sigs := Scalar.inverse nonce in
   let sigs := Scalar.mul sigs n in
   if Scalar.is_zero sigs then Some (mk_sign_result 0 sigr sigs recid)
   else if Scalar.is_high sigs then
     let sigs := Scalar.negate sigs in
     let recid :=
       match recid with
       | Some v => Some (Z.lxor v 1)
       | None => None
       end in
     Some (mk_sign_result 1 sigr sigs recid)
   else Some (mk_sign_result 1 sigr sigs recid))).

(** The scalar r with its overflow flag, the scalar s before low-s
    canonicalization and the recovery id before it, as the signer computes
    them. *)
Definition sign_computed_r (ctx : ecmult_gen_context)
    (nonce : Scalar.scalar) : Scalar.scalar * bool :=
  Scalar.set_b32
    (fe_get_b32 (fe_normalize (ge_x (ge_set_gej (ecmult_gen ctx nonce))))).



End Ecdsa.

(** ** Specification-level notions *)

(** The contents octets of an INTEGER without their leading zero bytes. *)
Fixpoint drop_zeros (l : list byte) : list byte :=
  match l with
  | [] => []
  | b :: l' => if byte_val b =? 0 then drop_zeros l' else l
  end.

(** The scalar denoted by the contents octets of an INTEGER: zero when the
    integer is negative, longer than 32 bytes or not below the group order. *)
Definition der_integer_overflows (content : list byte) : bool :=
  (Z.land (peek 0 content) 0x80 =? 0x80)
  || (32 <? length (drop_zeros content))%nat
  || (Scalar.n <=? be_decode (drop_zeros content)).

Definition der_integer_value (content : list byte) : Scalar.scalar :=
  if der_integer_overflows content then 0
  else be_decode (drop_zeros content).

(** The padding tests of the parser, on the contents octets. *)
Definition der_integer_padded (content : list byte) : bool :=
  ((peek 0 content =? 0x00) && (1 <? length content)%nat
   && (Z.land (peek 1 content) 0x80 =? 0x00))
  || ((peek 0 content =? 0xFF) && (1 <? length content)%nat
      && (Z.land (peek 1 content) 0x80 =? 0x80)).

(** The conditions under which a signature parses to [(rr, rs)]: the tag
    0x30, a sequence length equal to the number of bytes left, the two
    INTEGERs in order, and nothing after the second. *)
Definition sig_well_formed (rr0 rs0 : Scalar.scalar) (sig : list byte)
    (rr rs : Scalar.scalar) : Prop :=
  exists (seqlen : Z) (body after_r after_s : list byte),
    sig <> [] /\ peek 0 sig = 0x30 /\
    der_read_len (tl sig) = (seqlen, body) /\
    seqlen = Z.of_nat (length body) /\
    der_parse_integer rr0 body = (1, rr, after_r) /\
    der_parse_integer rs0 after_r = (1, rs, after_s) /\
    after_s = [].

(** The statement that a failing parse never leaves a partially populated
    output, at one input: when the parse fails, either both scalars are as
    they were on entry, or both INTEGERs were parsed and both scalars hold
    them. *)
Definition sig_parse_failure_atomic (rr0 rs0 : Scalar.scalar)
    (sig : list byte) : Prop :=
  let '(ret, rr, rs) := ecdsa_sig_parse rr0 rs0 sig in
  ret = 0 ->
  (rr = rr0 /\ rs = rs0)
  \/ (exists after_r after_s : list byte,
        der_parse_integer rr0 (snd (der_read_len (tl sig)))
          = (1, rr, after_r)
        /\ der_parse_integer rs0 after_r = (1, rs, after_s)).

(** The header of a signature is accepted: the input is not empty, its first
    byte is the tag 0x30, and the decoded sequence length is the number of
    bytes left after the length octets. *)
Definition sig_header_ok (sig : list byte) : Prop :=
  sig <> [] /\ peek 0 sig = 0x30
  /\ fst (der_read_len (tl sig))
     = Z.of_nat (length (snd (der_read_len (tl sig)))).

(** The contents octets the serializer emits for a scalar: its 32-byte
    encoding behind one zero byte, stripped of redundant leading zeros. *)
Definition der_int_bytes (a : Scalar.scalar) : list byte :=
  snd (der_strip 33 (x00 :: Scalar.get_b32 a)).

(** The bytes the serializer emits for a signature. *)
Definition der_sig_bytes (ar as_ : Scalar.scalar) : list byte :=
  let rp := der_int_bytes ar in
  let sp := der_int_bytes as_ in
  [byte_of_Z 0x30;
   byte_of_Z (4 + Z.of_nat (length sp) + Z.of_nat (length rp));
   byte_of_Z 0x02; byte_of_Z (Z.of_nat (length rp))]
  ++ rp ++ [byte_of_Z 0x02; byte_of_Z (Z.of_nat (length sp))] ++ sp.

(** The required size, as the serializer computes it. *)
Definition der_sig_size (ar as_ : Scalar.scalar) : Z :=
  6 + Z.of_nat (length (der_int_bytes as_))
    + Z.of_nat (length (der_int_bytes ar)).

(** The octets at the head of [sig] are the DER encoding of the length [v],
    followed by [rest]: either one octet below 128 holding [v], or the octet
    0x80 + k followed by k <= 8 octets, the first of them not zero, holding
    a value of at least 128 that does not exceed the bytes that follow. *)
Definition der_len_encodes (sig : list byte) (v : Z) (rest : list byte)
  : Prop :=
  (exists c : byte, sig = c :: rest /\ byte_val c = v /\ 0 <= v < 128)
  \/ (exists (k : nat) (octets : list byte),
        sig = byte_of_Z (0x80 + Z.of_nat k) :: octets ++ rest
        /\ length octets = k /\ (1 <= k <= 8)%nat
        /\ peek 0 octets <> 0
        /\ be_decode octets = v
        /\ 128 <= v <= Z.of_nat (length rest)).

(** Contents octets in the minimal non-negative form: at least one octet,
    the high bit of the first one clear, and a leading zero octet only in
    front of an octet with its high bit set. *)
Definition der_int_canonical (c : list byte) : Prop :=
  (1 <= length c)%nat
  /\ peek 0 c < 0x80
  /\ ((1 < length c)%nat -> peek 0 c = 0 -> 0x80 <= peek 1 c).

(** The INTEGER at the head of [sig] is accepted with contents octets
    [content], followed by [rest]: the tag 0x02, a decoded length of at
    least one that fits, and contents without excessive padding. *)
Definition der_integer_accepts (sig content rest : list byte) : Prop :=
  exists (t : byte) (sig1 body : list byte) (rlen : Z),
    sig = t :: sig1 /\ byte_val t = 0x02
    /\ der_read_len sig1 = (rlen, body)
    /\ 0 < rlen <= Z.of_nat (length body)
    /\ content = firstn (Z.to_nat rlen) body
    /\ rest = skipn (Z.to_nat rlen) body
    /\ der_integer_padded content = false.

(** The contract of the double multiplication that malleability rests on.
    [ecmult ctx a na ng] computes na*a + ng*G, so negating both scalars
    negates the point; a point and its negation are both, or neither, the
    point at infinity, and they have the same x-coordinate. *)
Definition ecmult_negation_contract {ecmult_context : Type}
    (ecmult : ecmult_context -> Group.gej -> Scalar.scalar ->
              Scalar.scalar -> Group.gej) : Prop :=
  forall (ctx : ecmult_context) (a : Group.gej) (na ng : Scalar.scalar),
    Scalar.wf na -> Scalar.wf ng ->
    Group.gej_is_infinity
      (ecmult ctx a (Scalar.negate na) (Scalar.negate ng))
    = Group.gej_is_infinity (ecmult ctx a na ng)
    /\ forall x : Field.fe,
         Group.gej_eq_x_var x
           (ecmult ctx a (Scalar.negate na) (Scalar.negate ng))
         = Group.gej_eq_x_var x (ecmult ctx a na ng).

(** ** A stand-in for the curve

    The curve group has prime order n, so it is the additive group of the
    integers mod n with the generator in the role of 1.  The stand-in holds a
    point by its discrete logarithm d (in the y slot, with z = 1, and z = 0
    for the point at infinity) and gives it the x-coordinate
    n - 1 + min(d, n - d), which a point and its negation share and which
    lies at or above n, so that the second candidate of the verifier is
    exercised.  It serves to exhibit instances of the statements below. *)

Module ToyCurve.
Import Field Group.

Definition x_of_dlog (d : Z) : fe := Scalar.n - 1 + Z.min d (Scalar.n - d).

Definition point_of_dlog (d : Z) : gej :=
  mk_gej (x_of_dlog d) d (if d =? 0 then 0 else 1).

Definition ecmult (_ : unit) (a : gej) (na ng : Scalar.scalar) : gej :=
  point_of_dlog ((na * gej_y a + ng) mod Scalar.n).

Definition ecmult_gen (_ : unit) (gn : Scalar.scalar) : gej :=
  point_of_dlog (gn mod Scalar.n).

Definition ge_set_gej (a : gej) : ge := mk_ge (gej_x a) (gej_y a).

End ToyCurve.

(** * Properties *)

(** ** Bytes and big-endian strings *)

Lemma byte_val_range (b : byte) : 0 <= byte_val b < 256.
Proof.
  unfold byte_val. pose proof (Byte.to_N_bounded b). lia.
Qed.

Lemma byte_of_Z_val (b : byte) : byte_of_Z (byte_val b) = b.
Proof.
  unfold byte_of_Z. pose proof (byte_val_range b) as Hr.
  rewrite Z.mod_small by lia. unfold byte_val.
  rewrite N2Z.id, Byte.of_to_N. reflexivity.
Qed.

Lemma byte_val_of_Z (z : Z) : byte_val (byte_of_Z z) = z mod 256.
Proof.
  unfold byte_of_Z, byte_val.
  assert (Hr : 0 <= z mod 256 < 256) by (apply Z.mod_pos_bound; lia).
  destruct (Byte.of_N (Z.to_N (z mod 256))) as [b|] eqn:E.
  - apply Byte.to_of_N in E. rewrite E. rewrite Z2N.id; lia.
  - apply Byte.of_N_None_iff in E. lia.
Qed.

Lemma byte_val_inj (a b : byte) : byte_val a = byte_val b -> a = b.
Proof.
  intros H. rewrite <- (byte_of_Z_val a), <- (byte_of_Z_val b), H.
  reflexivity.
Qed.

Lemma be_acc_shift (l : list byte) (acc : Z) :
  be_acc acc l = acc * 256 ^ Z.of_nat (length l) + be_decode l.
Proof.
  unfold be_decode. revert acc.
  induction l as [|b l IH]; intros acc.
  - simpl. lia.
  - cbn [be_acc length]. rewrite IH, (IH (0 * 256 + byte_val b)).
    rewrite Nat2Z.inj_succ, Z.pow_succ_r by lia. ring.
Qed.

Lemma be_decode_cons (b : byte) (l : list byte) :
  be_decode (b :: l) = byte_val b * 256 ^ Z.of_nat (length l) + be_decode l.
Proof.
  unfold be_decode at 1. cbn [be_acc]. rewrite be_acc_shift. ring.
Qed.

Lemma be_decode_app (l1 l2 : list byte) :
  be_decode (l1 ++ l2) =
  be_decode l1 * 256 ^ Z.of_nat (length l2) + be_decode l2.
Proof.
  induction l1 as [|b l1 IH].
  - cbn [app]. change (be_decode []) with 0. lia.
  - cbn [app]. rewrite !be_decode_cons, IH, length_app, Nat2Z.inj_add.
    rewrite Z.pow_add_r by lia. ring.
Qed.

Lemma be_decode_range (l : list byte) :
  0 <= be_decode l < 256 ^ Z.of_nat (length l).
Proof.
  induction l as [|b l IH].
  - unfold be_decode. simpl. lia.
  - rewrite be_decode_cons. cbn [length].
    rewrite Nat2Z.inj_succ, Z.pow_succ_r by lia.
    pose proof (byte_val_range b). nia.
Qed.

Lemma be_decode_zeros (k : nat) (l : list byte) :
  be_decode (repeat x00 k ++ l) = be_decode l.
Proof.
  induction k as [|k IH]; [reflexivity|].
  cbn [repeat app]. rewrite be_decode_cons, IH.
  change (byte_val x00) with 0. lia.
Qed.

Lemma be_encode_length (len : nat) (z : Z) : length (be_encode len z) = len.
Proof.
  induction len as [|k IH]; simpl; [reflexivity | now rewrite IH].
Qed.

Lemma be_decode_encode (len : nat) (z : Z) :
  be_decode (be_encode len z) = z mod 256 ^ Z.of_nat len.
Proof.
  induction len as [|k IH].
  - simpl. unfold be_decode. simpl. now rewrite Z.mod_1_r.
  - cbn [be_encode]. rewrite be_decode_cons, IH, be_encode_length.
    rewrite byte_val_of_Z, Nat2Z.inj_succ, Z.pow_succ_r by lia.
    assert (Hk : 0 < 256 ^ Z.of_nat k) by (apply Z.pow_pos_nonneg; lia).
    rewrite (Z.mul_comm 256), Z.rem_mul_r by lia. lia.
Qed.

(** ** Bit tests on a byte *)

Lemma byte_land_80 (c : byte) :
  Z.land (byte_val c) 0x80 = if byte_val c <? 128 then 0 else 0x80.
Proof. destruct c; reflexivity. Qed.

Lemma byte_land_7F (c : byte) :
  Z.land (byte_val c) 0x7F = byte_val c mod 128.
Proof. destruct c; reflexivity. Qed.

Lemma lor_shiftl_byte (a : Z) (c : byte) :
  0 <= a -> Z.lor (Z.shiftl a 8) (byte_val c) = a * 256 + byte_val c.
Proof.
  intros Ha. rewrite (Z.mul_comm a 256).
  destruct a as [|q|q]; [| |lia]; destruct c; reflexivity.
Qed.

(** ** The DER length decoder *)

(** While no more than [sizeof(size_t)] length octets are accumulated,
    [ret] does not wrap and is the big-endian value of the octets read so
    far: an accumulated value below 128 is refused. *)
Lemma der_read_len_loop_small (lenleft : nat) :
  forall (k : nat) (ret : Z) (sig : list byte),
    (k + lenleft <= 8)%nat ->
    0 <= ret < 256 ^ Z.of_nat k ->
    (lenleft <= length sig)%nat ->
    be_acc ret (firstn lenleft sig) < 128 ->
    fst (der_read_len_loop lenleft ret sig) = -1.
Proof.
  induction lenleft as [|l IH]; intros k ret sig Hk Hret Hlen Hacc.
  - cbn [der_read_len_loop firstn be_acc] in *.
    destruct (Z.ltb_spec ret 128); [reflexivity | lia].
  - destruct sig as [|b sig]; [simpl in Hlen; lia|].
    cbn [firstn be_acc] in Hacc. cbn [length] in Hlen.
    cbn [der_read_len_loop]. unfold peek. cbn [nth tl].
    pose proof (byte_val_range b) as Hb.
    assert (Hnext : 0 <= ret * 256 + byte_val b < 256 ^ Z.of_nat (S k)).
    { rewrite Nat2Z.inj_succ, Z.pow_succ_r by lia. lia. }
    assert (Hsmall : 256 ^ Z.of_nat (S k) <= 2 ^ size_t_bits).
    { change (2 ^ size_t_bits) with (256 ^ 8).
      apply Z.pow_le_mono_r; lia. }
    assert (Hshift : size_t_wrap (Z.shiftl ret 8) = Z.shiftl ret 8).
    { unfold size_t_wrap. apply Z.mod_small.
      rewrite Z.shiftl_mul_pow2 by lia. change (2 ^ 8) with 256. lia. }
    rewrite Hshift, lor_shiftl_byte by lia.
    match goal with |- context [if ?c then _ else _] => destruct c end;
      [reflexivity|].
    apply (IH (S k)); lia.
Qed.

(** C7: the length decoder returns the sentinel -1 when the first length
    byte is 0xFF, when it is 0x80 (indefinite form), and for every long-form
    input whose length octets accumulate to a value below 128; when the
    first length byte has its high bit clear the decoder succeeds with the
    byte's low 7 bits, the cursor standing right after that byte. *)
Theorem der_read_len_rejects_and_short_form (c : byte) (sig : list byte) :
  (byte_val c = 0xFF -> fst (der_read_len (c :: sig)) = -1) /\
  (byte_val c = 0x80 -> fst (der_read_len (c :: sig)) = -1) /\
  (Z.land (byte_val c) 0x80 <> 0 ->
   be_decode (firstn (Z.to_nat (Z.land (byte_val c) 0x7F)) sig) < 128 ->
   fst (der_read_len (c :: sig)) = -1) /\
  (Z.land (byte_val c) 0x80 = 0 ->
   der_read_len (c :: sig) = (Z.land (byte_val c) 0x7F, sig) /\
   0 <= Z.land (byte_val c) 0x7F).
Proof.
  pose proof (byte_val_range c) as Hc.
  pose proof (byte_land_80 c) as H80. pose proof (byte_land_7F c) as H7F.
  split; [|split; [|split]].
  - intros E. cbn [der_read_len]. rewrite E. reflexivity.
  - intros E. cbn [der_read_len]. rewrite E. reflexivity.
  - intros Hhigh Hacc. cbn [der_read_len].
    destruct (Z.eqb_spec (byte_val c) 0xFF); [reflexivity|].
    destruct (Z.eqb_spec (Z.land (byte_val c) 0x80) 0); [contradiction|].
    destruct (Z.eqb_spec (byte_val c) 0x80); [reflexivity|].
    destruct (Z.gtb_spec (Z.land (byte_val c) 0x7F) (Z.of_nat (length sig)));
      [reflexivity|].
    destruct (Z.eqb_spec (peek 0 sig) 0); [reflexivity|].
    destruct (Z.gtb_spec (Z.land (byte_val c) 0x7F) sizeof_size_t);
      [reflexivity|].
    unfold sizeof_size_t in *.
    assert (0 <= Z.land (byte_val c) 0x7F)
      by (rewrite H7F; apply Z.mod_pos_bound; lia).
    unfold be_decode in Hacc.
    apply (der_read_len_loop_small _ 0); first [lia | simpl; lia].
  - intros Hlow. cbn [der_read_len].
    destruct (Z.eqb_spec (byte_val c) 0xFF) as [E|_].
    { rewrite E in Hlow. discriminate Hlow. }
    rewrite Hlow. cbn [Z.eqb]. rewrite H7F.
    destruct (Z.ltb_spec (byte_val c) 128); [|rewrite H80 in Hlow; lia].
    rewrite Z.mod_small by lia. split; [reflexivity | lia].
Qed.

Lemma der_read_len_rejects_and_short_form_witness :
  fst (der_read_len ["255"%byte]) = -1 /\
  fst (der_read_len ["128"%byte; "001"%byte]) = -1 /\
  fst (der_read_len ["129"%byte; "127"%byte]) = -1 /\
  der_read_len ["005"%byte; "001"%byte] = (5, ["001"%byte]).
Proof.
  split; [|split; [|split]].
  - exact (proj1 (der_read_len_rejects_and_short_form "255"%byte [])
             eq_refl).
  - exact (proj1 (proj2
             (der_read_len_rejects_and_short_form "128"%byte ["001"%byte]))
             eq_refl).
  - refine (proj1 (proj2 (proj2
             (der_read_len_rejects_and_short_form "129"%byte ["127"%byte])))
             _ _).
    + vm_compute. discriminate.
    + vm_compute. reflexivity.
  - exact (proj1 (proj2 (proj2 (proj2
             (der_read_len_rejects_and_short_form "005"%byte ["001"%byte])))
             eq_refl)).
Defined.

(** ** The DER integer parser *)

Lemma drop_zeros_length (l : list byte) :
  (length (drop_zeros l) <= length l)%nat.
Proof.
  induction l as [|b l IH]; simpl; [lia|].
  destruct (byte_val b =? 0); simpl; lia.
Qed.

Lemma be_decode_drop_zeros (l : list byte) :
  be_decode (drop_zeros l) = be_decode l.
Proof.
  induction l as [|b l IH]; [reflexivity|].
  cbn [drop_zeros]. destruct (Z.eqb_spec (byte_val b) 0) as [E|E];
    [|reflexivity].
  rewrite IH, be_decode_cons, E. lia.
Qed.

Lemma skip_zeros_spec (rlen : nat) :
  forall sig : list byte,
    (rlen <= length sig)%nat ->
    let digits := drop_zeros (firstn rlen sig) in
    skip_zeros rlen sig =
      (length digits, skipn (rlen - length digits) sig) /\
    firstn (length digits) (skipn (rlen - length digits) sig) = digits.
Proof.
  induction rlen as [|k IH]; intros sig Hlen; [split; reflexivity|].
  destruct sig as [|b sig]; [simpl in Hlen; lia|].
  cbn [length] in Hlen. cbn [skip_zeros firstn drop_zeros].
  unfold peek. cbn [nth tl].
  destruct (Z.eqb_spec (byte_val b) 0) as [E|E].
  - destruct (IH sig ltac:(lia)) as [H1 H2]. cbn zeta in *.
    pose proof (drop_zeros_length (firstn k sig)) as Hd.
    rewrite length_firstn in Hd.
    replace (S k - length (drop_zeros (firstn k sig)))%nat
      with (S (k - length (drop_zeros (firstn k sig)))) by lia.
    cbn [skipn]. split; assumption.
  - cbn zeta. cbn [length]. rewrite length_firstn.
    replace (Nat.min k (length sig)) with k by lia.
    replace (S k - S k)%nat with O by lia.
    split; reflexivity.
Qed.

Lemma peek_firstn (i k : nat) (l : list byte) :
  (i < k)%nat -> peek i (firstn k l) = peek i l.
Proof.
  unfold peek. revert k l. induction i as [|i IH]; intros k l Hk.
  - destruct k; [lia|]. destruct l; reflexivity.
  - destruct k; [lia|]. destruct l; [reflexivity|].
    cbn [firstn nth]. apply IH. lia.
Qed.

Lemma firstn_repeat_le (x : byte) (a : nat) :
  forall b : nat, (a <= b)%nat -> firstn a (repeat x b) = repeat x a.
Proof.
  induction a as [|a IH]; intros b Hb; [reflexivity|].
  destruct b; [lia|]. cbn [repeat firstn]. rewrite IH by lia. reflexivity.
Qed.

Lemma memcpy_right_align (k : nat) (src : list byte) :
  (k <= 32)%nat -> (k <= length src)%nat ->
  memcpy (repeat x00 32) (32 - k) src k =
  repeat x00 (32 - k) ++ firstn k src.
Proof.
  intros Hk Hs. unfold memcpy.
  rewrite repeat_length, firstn_repeat_le by lia.
  replace (32 - k + k)%nat with 32%nat by lia.
  rewrite skipn_all2 by (rewrite repeat_length; lia).
  rewrite app_nil_r. apply firstn_all2.
  rewrite length_app, repeat_length, length_firstn. lia.
Qed.

(** The parser after its padding tests: overflow marking, zero skipping,
    right-aligned copy and decoding. *)
Lemma der_parse_integer_tail (r0 : Scalar.scalar) (body : list byte)
    (k : nat) :
  (0 < k <= length body)%nat ->
  (let overflow := Z.land (peek 0 body) 0x80 =? 0x80 in
   let '(rlen, sig) := skip_zeros k body in
   let overflow := overflow || (32 <? rlen)%nat in
   let '(r, overflow) :=
     if negb overflow
     then Scalar.set_b32 (memcpy (repeat x00 32) (32 - rlen) sig rlen)
     else (r0, overflow) in
   let r := if overflow then Scalar.set_int 0 else r in
   (1, r, skipn rlen sig)) =
  (1, der_integer_value (firstn k body), skipn k body).
Proof.
  intros Hk. cbn zeta.
  destruct (skip_zeros_spec k body ltac:(lia)) as [H1 H2]. cbn zeta in H1, H2.
  rewrite H1. clear H1.
  pose proof (drop_zeros_length (firstn k body)) as Hd.
  rewrite length_firstn in Hd.
  unfold der_integer_value, der_integer_overflows.
  rewrite (peek_firstn 0) by lia.
  set (digits := drop_zeros (firstn k body)) in *.
  assert (Hcur : skipn (length digits) (skipn (k - length digits) body)
                 = skipn k body).
  { rewrite skipn_skipn. f_equal. lia. }
  rewrite Hcur.
  destruct (Z.land (peek 0 body) 128 =? 128); [reflexivity|].
  cbn [orb]. destruct (Nat.ltb_spec 32 (length digits)) as [H32|H32];
    [reflexivity|].
  cbn [negb orb]. unfold Scalar.set_b32.
  rewrite memcpy_right_align by (rewrite ?length_skipn; lia).
  rewrite be_decode_zeros, H2.
  pose proof (be_decode_range digits) as Hv.
  destruct (Z.leb_spec Scalar.n (be_decode digits)); [reflexivity|].
  rewrite Z.mod_small by lia. reflexivity.
Qed.

(** What the parser does once the tag, the length and the padding tests
    have passed: it succeeds, the scalar is the value of the contents octets
    (zero on overflow) and the cursor stands after the contents. *)
Lemma der_parse_integer_body (r0 : Scalar.scalar) (t : byte)
    (sig1 body : list byte) (rlen : Z) :
  byte_val t = 0x02 ->
  der_read_len sig1 = (rlen, body) ->
  0 < rlen <= Z.of_nat (length body) ->
  der_integer_padded (firstn (Z.to_nat rlen) body) = false ->
  der_parse_integer r0 (t :: sig1) =
    (1, der_integer_value (firstn (Z.to_nat rlen) body),
     skipn (Z.to_nat rlen) body).
Proof.
  intros Htag Hlen Hr Hpad.
  unfold der_parse_integer. cbn [length Nat.eqb orb tl].
  unfold peek at 1. cbn [nth]. rewrite Htag. cbn [Z.eqb Pos.eqb negb].
  rewrite Hlen.
  destruct (Z.leb_spec rlen 0); [lia|].
  destruct (Z.gtb_spec rlen (Z.of_nat (length body))); [lia|].
  cbn [orb].
  set (k := Z.to_nat rlen) in *.
  assert (Hk : (0 < k <= length body)%nat) by lia.
  unfold der_integer_padded in Hpad.
  rewrite length_firstn in Hpad.
  replace (Nat.min k (length body)) with k in Hpad by lia.
  rewrite (peek_firstn 0) in Hpad by lia.
  assert (Hgt : (rlen >? 1) = (1 <? k)%nat).
  { destruct (Z.gtb_spec rlen 1), (Nat.ltb_spec 1 k); lia || reflexivity. }
  rewrite Hgt.
  destruct (Nat.ltb_spec 1 k) as [H1|H1].
  - rewrite (peek_firstn 1) in Hpad by lia.
    apply orb_false_elim in Hpad. destruct Hpad as [Hp0 HpF].
    rewrite Hp0, HpF. clear Hp0 HpF.
    now apply der_parse_integer_tail.
  - rewrite !andb_false_r, !andb_false_l. cbn [andb].
    now apply der_parse_integer_tail.
Qed.

(** C4: when the tag, length and padding tests pass and the integer
    overflows a scalar (the leading contents byte has its high bit set, or
    more than 32 bytes remain after the leading zero bytes, or the value is
    not below the group order), the parser reports success, the scalar is
    zero and the cursor stands after the contents octets. *)
Theorem der_parse_integer_overflow_is_zero (r0 : Scalar.scalar) (t : byte)
    (sig1 body : list byte) (rlen : Z) :
  byte_val t = 0x02 ->
  der_read_len sig1 = (rlen, body) ->
  0 < rlen <= Z.of_nat (length body) ->
  der_integer_padded (firstn (Z.to_nat rlen) body) = false ->
  Z.land (peek 0 (firstn (Z.to_nat rlen) body)) 0x80 = 0x80
  \/ (32 < length (drop_zeros (firstn (Z.to_nat rlen) body)))%nat
  \/ Scalar.n <= be_decode (drop_zeros (firstn (Z.to_nat rlen) body)) ->
  der_parse_integer r0 (t :: sig1) = (1, 0, skipn (Z.to_nat rlen) body).
Proof.
  intros Htag Hlen Hr Hpad Hov.
  rewrite (der_parse_integer_body r0 t sig1 body rlen Htag Hlen Hr Hpad).
  unfold der_integer_value, der_integer_overflows.
  destruct Hov as [H|[H|H]].
  - rewrite H. reflexivity.
  - apply Nat.ltb_lt in H. rewrite H, orb_true_r. reflexivity.
  - apply Z.leb_le in H. rewrite H, orb_true_r. reflexivity.
Qed.

Lemma der_parse_integer_overflow_is_zero_witness :
  der_parse_integer 7 ["002"%byte; "001"%byte; "133"%byte; "009"%byte]
  = (1, 0, ["009"%byte]).
Proof.
  apply (der_parse_integer_overflow_is_zero 7 "002"%byte
           ["001"%byte; "133"%byte; "009"%byte] ["133"%byte; "009"%byte] 1).
  - reflexivity.
  - reflexivity.
  - simpl. lia.
  - reflexivity.
  - left. reflexivity.
Defined.

(** A failing run of the integer parser leaves the scalar as it was, and the
    parser only ever returns 0 or 1. *)
Lemma der_parse_integer_failure_frame (r0 : Scalar.scalar)
    (sig : list byte) :
  (fst (fst (der_parse_integer r0 sig)) = 0 /\
   snd (fst (der_parse_integer r0 sig)) = r0)
  \/ fst (fst (der_parse_integer r0 sig)) = 1.
Proof.
  unfold der_parse_integer.
  destruct ((length sig =? 0)%nat || negb (peek 0 sig =? 2));
    [left; split; reflexivity|].
  destruct (der_read_len (tl sig)) as [rlen body].
  destruct ((rlen <=? 0) || (rlen >? Z.of_nat (length body)));
    [left; split; reflexivity|].
  destruct ((peek 0 body =? 0) && (rlen >? 1)
            && (Z.land (peek 1 body) 128 =? 0));
    [left; split; reflexivity|].
  destruct ((peek 0 body =? 255) && (rlen >? 1)
            && (Z.land (peek 1 body) 128 =? 128));
    [left; split; reflexivity|].
  right. cbn zeta.
  destruct (skip_zeros (Z.to_nat rlen) body) as [k digits].
  destruct (negb ((Z.land (peek 0 body) 128 =? 128) || (32 <? k)%nat)).
  - destruct (Scalar.set_b32 _) as [r ov]. reflexivity.
  - reflexivity.
Qed.

(** ** The signature parser *)

(** C8: signature parsing succeeds only if the first byte is 0x30, the
    decoded sequence length equals the number of bytes remaining after the
    length octets, both INTEGERs parse in order and the cursor after the
    second INTEGER is at the end of the buffer; whenever one of these fails
    the parse returns 0. *)
Theorem ecdsa_sig_parse_success_iff (rr0 rs0 : Scalar.scalar)
    (sig : list byte) (rr rs : Scalar.scalar) :
  (ecdsa_sig_parse rr0 rs0 sig = (1, rr, rs)
   <-> sig_well_formed rr0 rs0 sig rr rs)
  /\ (fst (fst (ecdsa_sig_parse rr0 rs0 sig)) = 1
      \/ fst (fst (ecdsa_sig_parse rr0 rs0 sig)) = 0).
Proof.
  unfold sig_well_formed, ecdsa_sig_parse.
  destruct sig as [|c sig1].
  { split; [|right; reflexivity]. split; [discriminate|].
    intros (? & ? & ? & ? & H & _). now elim H. }
  cbn [length Nat.eqb orb tl].
  destruct (Z.eqb_spec (peek 0 (c :: sig1)) 0x30) as [Htag|Htag]; cbn [negb].
  2:{ split; [|right; reflexivity]. split; [discriminate|].
      intros (? & ? & ? & ? & _ & H & _). contradiction. }
  destruct (der_read_len sig1) as [seqlen body] eqn:Hlen.
  destruct (Z.ltb_spec seqlen 0) as [Hneg|Hneg]; cbn [orb].
  { split; [|right; reflexivity]. split; [discriminate|].
    intros (? & ? & ? & ? & _ & _ & E & -> & _). inversion E. lia. }
  destruct (Z.gtb_spec seqlen (Z.of_nat (length body))) as [Hbig|Hbig].
  { split; [|right; reflexivity]. split; [discriminate|].
    intros (? & ? & ? & ? & _ & _ & E & -> & _). inversion E. subst. lia. }
  destruct (Z.eqb_spec seqlen (Z.of_nat (length body))) as [Heq|Hne];
    cbn [negb].
  2:{ split; [|right; reflexivity]. split; [discriminate|].
      intros (? & ? & ? & ? & _ & _ & E & -> & _). inversion E. subst.
      contradiction. }
  destruct (der_parse_integer rr0 body) as [[ok1 rr1] after_r] eqn:Hr.
  destruct (Z.eqb_spec ok1 0) as [Hok1|Hok1].
  { split; [|right; reflexivity]. split; [discriminate|].
    intros (? & ? & ? & ? & _ & _ & E & _ & E1 & _).
    inversion E. subst. rewrite Hr in E1. inversion E1; lia. }
  destruct (der_parse_integer rs0 after_r) as [[ok2 rs2] after_s] eqn:Hs.
  destruct (Z.eqb_spec ok2 0) as [Hok2|Hok2].
  { split; [|right; reflexivity]. split; [discriminate|].
    intros (? & ? & ? & ? & _ & _ & E & _ & E1 & E2 & _).
    inversion E. subst. rewrite Hr in E1. inversion E1. subst.
    rewrite Hs in E2. inversion E2; lia. }
  pose proof (der_parse_integer_failure_frame rr0 body) as F1.
  pose proof (der_parse_integer_failure_frame rs0 after_r) as F2.
  rewrite Hr in F1. rewrite Hs in F2. cbn [fst snd] in F1, F2.
  assert (ok1 = 1) by (destruct F1 as [[? _]|?]; [contradiction|assumption]).
  assert (ok2 = 1) by (destruct F2 as [[? _]|?]; [contradiction|assumption]).
  subst ok1 ok2.
  destruct after_s as [|x after_s]; cbn [length Nat.eqb negb].
  - split; [|left; reflexivity]. split.
    + intros E. inversion E. subst.
      exists (Z.of_nat (length body)), body, after_r, [].
      repeat split; try assumption; try discriminate.
    + intros (? & ? & ? & ? & _ & _ & E & _ & E1 & E2 & _).
      inversion E. subst. rewrite Hr in E1. inversion E1. subst.
      rewrite Hs in E2. inversion E2. reflexivity.
  - split; [|right; reflexivity]. split; [discriminate|].
    intros (? & ? & ? & ? & _ & _ & E & _ & E1 & E2 & E3).
    inversion E. subst. rewrite Hr in E1. inversion E1. subst.
    rewrite Hs in E2. inversion E2.
Qed.

(** The parse of a well-formed signature, as a check of [sig_well_formed]. *)
Example ecdsa_sig_parse_small :
  ecdsa_sig_parse 0 0
    ["048"%byte; "006"%byte; "002"%byte; "001"%byte; "005"%byte;
     "002"%byte; "001"%byte; "009"%byte] = (1, 5, 9).
Proof. reflexivity. Qed.

(** C9, as stated, fails: on the input 30 03 02 01 05 the first INTEGER is
    parsed and stored into [rr], the second INTEGER is missing, and the
    parse returns 0 with [rr] written from the input and [rs] untouched. *)
Lemma ecdsa_sig_parse_partial_on_failure :
  ecdsa_sig_parse 7 8
    ["048"%byte; "003"%byte; "002"%byte; "001"%byte; "005"%byte] = (0, 5, 8)
  /\ ~ sig_parse_failure_atomic 7 8
         ["048"%byte; "003"%byte; "002"%byte; "001"%byte; "005"%byte].
Proof.
  split; [reflexivity|].
  unfold sig_parse_failure_atomic.
  change (ecdsa_sig_parse 7 8
            ["048"%byte; "003"%byte; "002"%byte; "001"%byte; "005"%byte])
    with (0, 5, 8).
  intros H. destruct (H eq_refl) as [[E _]|(after_r & after_s & E1 & E2)].
  - discriminate E.
  - change (der_parse_integer 7
              (snd (der_read_len
                 (tl ["048"%byte; "003"%byte; "002"%byte; "001"%byte;
                      "005"%byte]))))
      with (1, 5, @nil byte) in E1.
    inversion E1. subst after_r.
    change (der_parse_integer 8 []) with (0, 8, @nil byte) in E2.
    discriminate E2.
Qed.

Lemma sig_header_ok_decide (sig : list byte) :
  sig_header_ok sig \/ ~ sig_header_ok sig.
Proof.
  unfold sig_header_ok. destruct sig as [|c sig1].
  - right. intros [H _]. now apply H.
  - destruct (Z.eq_dec (peek 0 (c :: sig1)) 0x30) as [Ht|Ht];
      [|right; intros (_ & H & _); contradiction].
    destruct (Z.eq_dec (fst (der_read_len (tl (c :: sig1))))
                (Z.of_nat (length (snd (der_read_len (tl (c :: sig1)))))))
      as [Hl|Hl]; [|right; intros (_ & _ & H); contradiction].
    left. split; [discriminate|]. split; assumption.
Qed.

(** The signature parser after its header tests: a rejected header returns 0
    before any output is touched; after an accepted header the result is
    that of the two calls of the integer parser and the final test. *)
Lemma ecdsa_sig_parse_after_header (rr0 rs0 : Scalar.scalar)
    (sig : list byte) :
  (~ sig_header_ok sig -> ecdsa_sig_parse rr0 rs0 sig = (0, rr0, rs0))
  /\ (sig_header_ok sig ->
      ecdsa_sig_parse rr0 rs0 sig =
      let '(ok1, rr, after_r) :=
        der_parse_integer rr0 (snd (der_read_len (tl sig))) in
      if ok1 =? 0 then (0, rr, rs0)
      else
        let '(ok2, rs, after_s) := der_parse_integer rs0 after_r in
        if ok2 =? 0 then (0, rr, rs)
        else if negb (length after_s =? 0)%nat then (0, rr, rs)
        else (1, rr, rs)).
Proof.
  unfold sig_header_ok, ecdsa_sig_parse.
  destruct sig as [|c sig1].
  { split; [reflexivity | intros [H _]; now elim H]. }
  cbn [length Nat.eqb orb tl].
  destruct (Z.eqb_spec (peek 0 (c :: sig1)) 0x30) as [Htag|Htag]; cbn [negb].
  2:{ split; [reflexivity | intros (_ & H & _); contradiction]. }
  destruct (der_read_len sig1) as [seqlen body]. cbn [fst snd].
  destruct (Z.ltb_spec seqlen 0) as [Hneg|Hneg]; cbn [orb].
  { split; [reflexivity | intros (_ & _ & H); lia]. }
  destruct (Z.gtb_spec seqlen (Z.of_nat (length body))) as [Hbig|Hbig].
  { split; [reflexivity | intros (_ & _ & H); lia]. }
  destruct (Z.eqb_spec seqlen (Z.of_nat (length body))) as [Heq|Hne];
    cbn [negb].
  2:{ split; [reflexivity | intros (_ & _ & H); contradiction]. }
  split; [|intros _; reflexivity].
  intros H. exfalso. apply H.
  split; [discriminate|]. split; assumption.
Qed.

(** C9, amended: where a parse fails decides what the outputs hold, and the
    parser never resets them.  With [body] the bytes after the sequence
    header: if the header is rejected, or the first INTEGER fails to parse,
    both scalars are as they were on entry; if the first INTEGER parses to
    [v] and the second fails to parse, [rr] holds [v], written from the
    input, and [rs] is as it was on entry; if both INTEGERs parse, to [v]
    and [w], and bytes remain after the second, [rr] holds [v] and [rs]
    holds [w].  Every failing parse is one of these. *)
Theorem ecdsa_sig_parse_failure_states (rr0 rs0 : Scalar.scalar)
    (sig : list byte) :
  let body := snd (der_read_len (tl sig)) in
  (~ sig_header_ok sig -> ecdsa_sig_parse rr0 rs0 sig = (0, rr0, rs0))
  /\ (sig_header_ok sig ->
      fst (fst (der_parse_integer rr0 body)) = 0 ->
      ecdsa_sig_parse rr0 rs0 sig = (0, rr0, rs0))
  /\ (sig_header_ok sig ->
      forall (v : Scalar.scalar) (after_r : list byte),
        der_parse_integer rr0 body = (1, v, after_r) ->
        fst (fst (der_parse_integer rs0 after_r)) = 0 ->
        ecdsa_sig_parse rr0 rs0 sig = (0, v, rs0))
  /\ (sig_header_ok sig ->
      forall (v w : Scalar.scalar) (after_r after_s : list byte),
        der_parse_integer rr0 body = (1, v, after_r) ->
        der_parse_integer rs0 after_r = (1, w, after_s) ->
        after_s <> [] ->
        ecdsa_sig_parse rr0 rs0 sig = (0, v, w))
  /\ (fst (fst (ecdsa_sig_parse rr0 rs0 sig)) = 0 ->
      ~ sig_header_ok sig
      \/ (sig_header_ok sig
          /\ (fst (fst (der_parse_integer rr0 body)) = 0
              \/ exists (v : Scalar.scalar) (after_r : list byte),
                   der_parse_integer rr0 body = (1, v, after_r)
                   /\ (fst (fst (der_parse_integer rs0 after_r)) = 0
                       \/ exists (w : Scalar.scalar) (after_s : list byte),
                            der_parse_integer rs0 after_r = (1, w, after_s)
                            /\ after_s <> [])))).
Proof.
  cbn zeta.
  destruct (ecdsa_sig_parse_after_header rr0 rs0 sig) as [Hbad Hgood].
  set (body := snd (der_read_len (tl sig))) in *.
  split; [exact Hbad|]. split; [|split; [|split]].
  - intros Hh H1. rewrite (Hgood Hh).
    pose proof (der_parse_integer_failure_frame rr0 body) as F1.
    destruct (der_parse_integer rr0 body) as [[ok1 rr1] after_r].
    cbn [fst snd] in *. subst ok1.
    destruct F1 as [[_ ->]|F1]; [reflexivity | discriminate F1].
  - intros Hh v after_r H1 H2. rewrite (Hgood Hh), H1. cbn [Z.eqb].
    pose proof (der_parse_integer_failure_frame rs0 after_r) as F2.
    destruct (der_parse_integer rs0 after_r) as [[ok2 rs2] after_s].
    cbn [fst snd] in *. subst ok2.
    destruct F2 as [[_ ->]|F2]; [reflexivity | discriminate F2].
  - intros Hh v w after_r after_s H1 H2 Hrest.
    rewrite (Hgood Hh), H1. cbn [Z.eqb]. rewrite H2. cbn [Z.eqb].
    destruct after_s; [contradiction | reflexivity].
  - intros Hfail.
    destruct (sig_header_ok_decide sig) as [Hh|Hh]; [|left; exact Hh].
    right. split; [exact Hh|]. rewrite (Hgood Hh) in Hfail.
    pose proof (der_parse_integer_failure_frame rr0 body) as F1.
    destruct (der_parse_integer rr0 body) as [[ok1 rr1] after_r].
    cbn [fst snd] in F1 |- *.
    destruct F1 as [[-> _]| ->]; [left; reflexivity|]. right.
    exists rr1, after_r. split; [reflexivity|]. cbn [Z.eqb] in Hfail.
    pose proof (der_parse_integer_failure_frame rs0 after_r) as F2.
    destruct (der_parse_integer rs0 after_r) as [[ok2 rs2] after_s].
    cbn [fst snd] in F2 |- *.
    destruct F2 as [[-> _]| ->]; [left; reflexivity|]. right.
    exists rs2, after_s. split; [reflexivity|]. cbn [Z.eqb] in Hfail.
    destruct after_s; [discriminate Hfail | discriminate].
Qed.

Lemma ecdsa_sig_parse_failure_states_witness :
  ecdsa_sig_parse 7 8
    ["048"%byte; "003"%byte; "002"%byte; "001"%byte; "005"%byte]
  = (0, 5, 8).
Proof.
  refine (proj1 (proj2 (proj2
            (ecdsa_sig_parse_failure_states 7 8
               ["048"%byte; "003"%byte; "002"%byte; "001"%byte;
                "005"%byte]))) _ 5 [] _ _).
  - split; [discriminate|]. split; reflexivity.
  - reflexivity.
  - reflexivity.
Defined.

(** ** The serializer *)

Lemma der_read_len_short (v : Z) (rest : list byte) :
  0 <= v < 128 -> der_read_len (byte_of_Z v :: rest) = (v, rest).
Proof.
  intros Hv. cbn [der_read_len].
  pose proof (byte_land_80 (byte_of_Z v)) as H80.
  rewrite byte_val_of_Z, Z.mod_small in * by lia.
  destruct (Z.eqb_spec v 0xFF); [lia|].
  destruct (Z.ltb_spec v 128); [|lia].
  rewrite H80. reflexivity.
Qed.

Lemma der_strip_step (lenR : nat) (rp : list byte) :
  der_strip (S (S lenR)) rp =
  if (peek 0 rp =? 0) && (peek 1 rp <? 0x80)
  then der_strip (S lenR) (tl rp)
  else (S (S lenR), rp).
Proof. reflexivity. Qed.

Lemma der_strip_spec (lenR : nat) :
  forall rp : list byte,
    length rp = lenR -> (1 <= lenR)%nat -> peek 0 rp < 0x80 ->
    length (snd (der_strip lenR rp)) = fst (der_strip lenR rp)
    /\ (1 <= fst (der_strip lenR rp) <= lenR)%nat
    /\ be_decode (snd (der_strip lenR rp)) = be_decode rp
    /\ peek 0 (snd (der_strip lenR rp)) < 0x80
    /\ ((1 < fst (der_strip lenR rp))%nat ->
        peek 0 (snd (der_strip lenR rp)) = 0 ->
        0x80 <= peek 1 (snd (der_strip lenR rp)))
    /\ (fst (der_strip lenR rp) = lenR -> snd (der_strip lenR rp) = rp).
Proof.
  induction lenR as [|k IH]; intros rp Hlen Hpos Hhd; [lia|].
  destruct k as [|k].
  - cbn [der_strip fst snd]. repeat split; try assumption; lia.
  - rewrite der_strip_step.
    destruct (Z.eqb_spec (peek 0 rp) 0) as [H0|H0]; cbn [andb].
    + destruct (Z.ltb_spec (peek 1 rp) 0x80) as [H1|H1].
      * destruct rp as [|b rp]; [discriminate Hlen|].
        cbn [tl]. cbn [length] in Hlen.
        assert (Hhd' : peek 0 rp < 0x80).
        { unfold peek in *. cbn [nth] in H1. exact H1. }
        destruct (IH rp ltac:(lia) ltac:(lia) Hhd')
          as (I1 & I2 & I3 & I4 & I5 & I6).
        split; [exact I1|]. split; [lia|]. split.
        { rewrite I3, be_decode_cons.
          unfold peek in H0. cbn [nth] in H0. rewrite H0. lia. }
        split; [exact I4|]. split; [exact I5|].
        intros E. exfalso. lia.
      * cbn [fst snd]. repeat split; try assumption; try lia.
    + cbn [fst snd]. repeat split; try assumption; try lia.
Qed.

Lemma get_b32_head (a : Scalar.scalar) :
  length (x00 :: Scalar.get_b32 a) = 33%nat
  /\ peek 0 (x00 :: Scalar.get_b32 a) < 0x80.
Proof.
  split.
  - unfold Scalar.get_b32. cbn [length]. now rewrite be_encode_length.
  - unfold peek. cbn [nth]. change (byte_val x00) with 0. lia.
Qed.

Lemma der_int_bytes_length (a : Scalar.scalar) :
  (1 <= length (der_int_bytes a) <= 33)%nat
  /\ fst (der_strip 33 (x00 :: Scalar.get_b32 a)) = length (der_int_bytes a).
Proof.
  destruct (get_b32_head a) as [Hl Hh].
  destruct (der_strip_spec 33 _ Hl ltac:(lia) Hh) as (I1 & I2 & _).
  unfold der_int_bytes. rewrite I1. split; [exact I2 | reflexivity].
Qed.

Ltac len_solve :=
  repeat rewrite ?length_app, ?length_firstn, ?length_skipn;
  cbn [length app]; lia.

Lemma memcpy_append (done rest src : list byte) (off len : nat) :
  length done = off -> (len <= length rest)%nat -> (len <= length src)%nat ->
  memcpy (done ++ rest) off src len =
  (done ++ firstn len src) ++ skipn len rest.
Proof.
  intros Hd Hr Hs. unfold memcpy. subst off.
  assert (E1 : firstn (length done) (done ++ rest) = done).
  { rewrite firstn_app, firstn_all, Nat.sub_diag, firstn_O.
    apply app_nil_r. }
  assert (E2 : skipn (length done + len) (done ++ rest) = skipn len rest).
  { rewrite skipn_app, (skipn_all2 done) by lia.
    replace (length done + len - length done)%nat with len by lia.
    reflexivity. }
  rewrite E1, E2, <- app_assoc. apply firstn_all2.
  rewrite !length_app, length_firstn, length_skipn. lia.
Qed.

Lemma store_append (done rest : list byte) (off : nat) (v : Z) :
  length done = off -> (1 <= length rest)%nat ->
  store (done ++ rest) off v = (done ++ [byte_of_Z v]) ++ skipn 1 rest.
Proof.
  intros Hd Hr. unfold store.
  rewrite memcpy_append by (cbn [length]; lia). reflexivity.
Qed.

Lemma serialize_scratch (a : Scalar.scalar) :
  memcpy (repeat x00 33) 1 (Scalar.get_b32 a) 32 = x00 :: Scalar.get_b32 a.
Proof.
  assert (Hl : length (Scalar.get_b32 a) = 32%nat)
    by apply be_encode_length.
  change (repeat x00 33) with ([x00] ++ repeat x00 32).
  rewrite memcpy_append by (rewrite ?repeat_length, ?Hl; cbn [length]; lia).
  rewrite skipn_all2 by (rewrite repeat_length; lia).
  rewrite firstn_all2 by lia. rewrite app_nil_r. reflexivity.
Qed.

Lemma der_sig_bytes_length (ar as_ : Scalar.scalar) :
  Z.of_nat (length (der_sig_bytes ar as_)) = der_sig_size ar as_.
Proof.
  unfold der_sig_bytes, der_sig_size. cbn zeta.
  rewrite !length_app. cbn [length]. lia.
Qed.

(** The serializer, case by case. *)
Lemma ecdsa_sig_serialize_cases (sig : list byte) (size : Z)
    (ar as_ : Scalar.scalar) :
  (size < der_sig_size ar as_ ->
   ecdsa_sig_serialize sig size ar as_ = (0, sig, der_sig_size ar as_))
  /\ (der_sig_size ar as_ <= size ->
      fst (fst (ecdsa_sig_serialize sig size ar as_)) = 1
      /\ snd (ecdsa_sig_serialize sig size ar as_) = der_sig_size ar as_)
  /\ (der_sig_size ar as_ <= size ->
      der_sig_size ar as_ <= Z.of_nat (length sig) ->
      ecdsa_sig_serialize sig size ar as_ =
      (1, der_sig_bytes ar as_
            ++ skipn (Z.to_nat (der_sig_size ar as_)) sig,
       der_sig_size ar as_)).
Proof.
  unfold ecdsa_sig_serialize, der_sig_size, der_sig_bytes.
  rewrite !serialize_scratch.
  destruct (der_int_bytes_length ar) as [Hr1 Hr2].
  destruct (der_int_bytes_length as_) as [Hs1 Hs2].
  unfold der_int_bytes in *.
  destruct (der_strip 33 (x00 :: Scalar.get_b32 ar)) as [lenR rp].
  destruct (der_strip 33 (x00 :: Scalar.get_b32 as_)) as [lenS sp].
  cbn [fst snd] in *. subst lenR lenS. cbn zeta.
  unfold size_t_wrap.
  rewrite Z.mod_small by (change (2 ^ size_t_bits) with (2 ^ 64); lia).
  split; [|split].
  - intros Hlt. apply Z.ltb_lt in Hlt. rewrite Hlt. reflexivity.
  - intros Hge. apply Z.ltb_ge in Hge. rewrite Hge. split; reflexivity.
  - intros Hge Hroom. apply Z.ltb_ge in Hge. rewrite Hge.
    f_equal. f_equal.
    rewrite <- (app_nil_l sig) at 1.
    do 4 (rewrite store_append by len_solve).
    rewrite memcpy_append by len_solve.
    do 2 (rewrite store_append by len_solve).
    rewrite memcpy_append by len_solve.
    rewrite !skipn_skipn, !firstn_all. cbn [app].
    rewrite <- !app_assoc. cbn [app].
    do 4 f_equal. f_equal. do 2 f_equal. f_equal.
    f_equal. lia.
Qed.

(** C6: the value stored into the size parameter is always the required
    size 6 + len(r-bytes) + len(s-bytes); when the capacity passed in is
    smaller, the serializer returns 0 and the output buffer is unchanged. *)
Theorem ecdsa_sig_serialize_reports_size (sig : list byte) (size : Z)
    (ar as_ : Scalar.scalar) :
  snd (ecdsa_sig_serialize sig size ar as_)
    = 6 + Z.of_nat (length (der_int_bytes ar))
        + Z.of_nat (length (der_int_bytes as_))
  /\ (size < 6 + Z.of_nat (length (der_int_bytes ar))
             + Z.of_nat (length (der_int_bytes as_)) ->
      fst (fst (ecdsa_sig_serialize sig size ar as_)) = 0
      /\ snd (fst (ecdsa_sig_serialize sig size ar as_)) = sig).
Proof.
  destruct (ecdsa_sig_serialize_cases sig size ar as_) as (Hlt & Hge & _).
  replace (6 + Z.of_nat (length (der_int_bytes ar))
             + Z.of_nat (length (der_int_bytes as_)))
    with (der_sig_size ar as_) by (unfold der_sig_size; lia).
  split.
  - destruct (Z.lt_ge_cases size (der_sig_size ar as_)) as [H|H].
    + rewrite (Hlt H). reflexivity.
    + apply (Hge H).
  - intros H. rewrite (Hlt H). split; reflexivity.
Qed.

Lemma ecdsa_sig_serialize_reports_size_witness :
  snd (ecdsa_sig_serialize (repeat x00 7) 7 5 9) = 8
  /\ fst (fst (ecdsa_sig_serialize (repeat x00 7) 7 5 9)) = 0
  /\ snd (fst (ecdsa_sig_serialize (repeat x00 7) 7 5 9)) = repeat x00 7.
Proof.
  destruct (ecdsa_sig_serialize_reports_size (repeat x00 7) 7 5 9)
    as [H1 H2].
  split; [exact H1|]. apply H2. vm_compute. reflexivity.
Defined.

(** C10: each stripped integer encoding is 1 to 33 bytes long, so the
    required size is at most 72 and the sequence body is at most 70 bytes
    long, below 128; the single length byte the serializer writes for the
    outer sequence is read back by the length decoder as the length of the
    body. *)
Theorem der_sig_lengths_bounded (ar as_ : Scalar.scalar) :
  (1 <= length (der_int_bytes ar) <= 33)%nat
  /\ (1 <= length (der_int_bytes as_) <= 33)%nat
  /\ 6 + Z.of_nat (length (der_int_bytes ar))
       + Z.of_nat (length (der_int_bytes as_)) <= 72
  /\ 4 + Z.of_nat (length (der_int_bytes ar))
       + Z.of_nat (length (der_int_bytes as_)) <= 70 < 128
  /\ forall (sig : list byte) (size : Z),
       der_sig_size ar as_ <= size ->
       der_sig_size ar as_ <= Z.of_nat (length sig) ->
       fst (fst (ecdsa_sig_serialize sig size ar as_)) = 1
       /\ der_read_len
            (skipn 1 (snd (fst (ecdsa_sig_serialize sig size ar as_))))
          = (4 + Z.of_nat (length (der_int_bytes ar))
               + Z.of_nat (length (der_int_bytes as_)),
             skipn 2 (snd (fst (ecdsa_sig_serialize sig size ar as_)))).
Proof.
  destruct (der_int_bytes_length ar) as [Hr _].
  destruct (der_int_bytes_length as_) as [Hs _].
  split; [exact Hr|]. split; [exact Hs|].
  split; [lia|]. split; [lia|].
  intros sig size Hsize Hroom.
  destruct (ecdsa_sig_serialize_cases sig size ar as_) as (_ & _ & Hok).
  rewrite (Hok Hsize Hroom). cbn [fst snd]. split; [reflexivity|].
  unfold der_sig_bytes. cbn [app skipn].
  rewrite der_read_len_short by lia. f_equal. lia.
Qed.

Lemma der_sig_lengths_bounded_witness :
  der_read_len
    (skipn 1 (snd (fst (ecdsa_sig_serialize (repeat x00 72) 72 5 9))))
  = (4 + Z.of_nat (length (der_int_bytes 5))
       + Z.of_nat (length (der_int_bytes 9)),
     skipn 2 (snd (fst (ecdsa_sig_serialize (repeat x00 72) 72 5 9)))).
Proof.
  apply (der_sig_lengths_bounded 5 9).
  - vm_compute. discriminate.
  - vm_compute. discriminate.
Defined.

(** ** Round trip *)

Lemma scalar_n_lt_2_256 : Scalar.n < 256 ^ 32.
Proof. reflexivity. Qed.

Lemma get_b32_decode (a : Scalar.scalar) :
  0 <= a < Scalar.n -> be_decode (Scalar.get_b32 a) = a.
Proof.
  intros Ha. unfold Scalar.get_b32. rewrite be_decode_encode.
  apply Z.mod_small. pose proof scalar_n_lt_2_256.
  change (Z.of_nat 32) with 32. lia.
Qed.

(** The stripped encoding of a scalar is never padded, never negative,
    never too long, and denotes the scalar. *)
Lemma der_int_bytes_canonical (a : Scalar.scalar) :
  0 <= a < Scalar.n ->
  der_integer_padded (der_int_bytes a) = false
  /\ der_integer_value (der_int_bytes a) = a.
Proof.
  intros Ha.
  destruct (get_b32_head a) as [Hl Hh].
  destruct (der_strip_spec 33 _ Hl ltac:(lia) Hh)
    as (I1 & I2 & I3 & I4 & I5 & I6).
  fold (der_int_bytes a) in I1, I3, I4, I5, I6.
  set (k := fst (der_strip 33 (x00 :: Scalar.get_b32 a))) in *.
  assert (Hhigh : Z.land (peek 0 (der_int_bytes a)) 0x80 = 0).
  { unfold peek in *. rewrite byte_land_80.
    destruct (Z.ltb_spec (byte_val (nth 0 (der_int_bytes a) x00)) 128);
      [reflexivity | lia]. }
  split.
  - unfold der_integer_padded. rewrite I1.
    destruct (Z.eqb_spec (peek 0 (der_int_bytes a)) 0xFF) as [E|_];
      [lia|]. cbn [andb orb]. rewrite orb_false_r.
    destruct (Z.eqb_spec (peek 0 (der_int_bytes a)) 0) as [E0|_];
      [|reflexivity].
    destruct (Nat.ltb_spec 1 k) as [Hk|_]; [|reflexivity].
    cbn [andb]. specialize (I5 Hk E0).
    unfold peek in *. rewrite byte_land_80.
    destruct (Z.ltb_spec (byte_val (nth 1 (der_int_bytes a) x00)) 128);
      [lia | reflexivity].
  - unfold der_integer_value, der_integer_overflows.
    rewrite Hhigh. cbn [Z.eqb orb].
    rewrite be_decode_drop_zeros, I3, be_decode_cons.
    change (byte_val x00) with 0. rewrite Z.mul_0_l, Z.add_0_l.
    rewrite (get_b32_decode a Ha).
    assert (Hlen : (length (drop_zeros (der_int_bytes a)) <= 32)%nat).
    { destruct (Nat.eq_dec k 33) as [E|E].
      - rewrite (I6 E). cbn [drop_zeros]. change (byte_val x00 =? 0) with true.
        cbn iota. pose proof (drop_zeros_length (Scalar.get_b32 a)) as Hd.
        unfold Scalar.get_b32 in Hd at 2. rewrite be_encode_length in Hd.
        exact Hd.
      - pose proof (drop_zeros_length (der_int_bytes a)). lia. }
    destruct (Nat.ltb_spec 32 (length (drop_zeros (der_int_bytes a))));
      [lia|].
    destruct (Z.leb_spec Scalar.n a); [lia|]. reflexivity.
Qed.

(** Parsing the INTEGER the serializer writes for a scalar gives it back. *)
Lemma der_parse_integer_encoded (r0 a : Scalar.scalar) (rest : list byte) :
  0 <= a < Scalar.n ->
  der_parse_integer r0
    (byte_of_Z 0x02 :: byte_of_Z (Z.of_nat (length (der_int_bytes a)))
       :: der_int_bytes a ++ rest)
  = (1, a, rest).
Proof.
  intros Ha.
  destruct (der_int_bytes_length a) as [Hlen _].
  destruct (der_int_bytes_canonical a Ha) as [Hpad Hval].
  assert (Hfirst : firstn (Z.to_nat (Z.of_nat (length (der_int_bytes a))))
                     (der_int_bytes a ++ rest) = der_int_bytes a).
  { rewrite Nat2Z.id, firstn_app, firstn_all, Nat.sub_diag, firstn_O.
    apply app_nil_r. }
  assert (Hskip : skipn (Z.to_nat (Z.of_nat (length (der_int_bytes a))))
                    (der_int_bytes a ++ rest) = rest).
  { rewrite Nat2Z.id, skipn_app, skipn_all, Nat.sub_diag. reflexivity. }
  rewrite (der_parse_integer_body r0 (byte_of_Z 0x02)
             (byte_of_Z (Z.of_nat (length (der_int_bytes a)))
                :: der_int_bytes a ++ rest)
             (der_int_bytes a ++ rest)
             (Z.of_nat (length (der_int_bytes a)))).
  - rewrite Hfirst, Hskip, Hval. reflexivity.
  - reflexivity.
  - apply der_read_len_short. lia.
  - rewrite length_app. lia.
  - rewrite Hfirst. exact Hpad.
Qed.

(** Parsing the bytes the serializer emits gives the two scalars back. *)
Lemma ecdsa_sig_parse_encoded (rr0 rs0 ar as_ : Scalar.scalar) :
  0 <= ar < Scalar.n -> 0 <= as_ < Scalar.n ->
  ecdsa_sig_parse rr0 rs0 (der_sig_bytes ar as_) = (1, ar, as_).
Proof.
  intros Hr Hs.
  destruct (der_int_bytes_length ar) as [Hlr _].
  destruct (der_int_bytes_length as_) as [Hls _].
  unfold ecdsa_sig_parse, der_sig_bytes. cbn [app length Nat.eqb orb tl].
  change (peek 0 (byte_of_Z 48 :: _) =? 48) with true. cbn [negb].
  rewrite der_read_len_short by lia.
  match goal with
  | |- context [Z.of_nat (length ?l)] =>
      lazymatch l with
      | byte_of_Z 2 :: _ =>
          replace (Z.of_nat (length l))
            with (4 + Z.of_nat (length (der_int_bytes as_))
                    + Z.of_nat (length (der_int_bytes ar)))
            by (cbn [length]; rewrite length_app; cbn [length]; lia)
      end
  end.
  destruct (Z.ltb_spec (4 + Z.of_nat (length (der_int_bytes as_))
                          + Z.of_nat (length (der_int_bytes ar))) 0);
    [lia|].
  rewrite Z.gtb_ltb, Z.ltb_irrefl, Z.eqb_refl. cbn [orb negb].
  rewrite (der_parse_integer_encoded rr0 ar _ Hr). cbn [Z.eqb].
  pose proof (der_parse_integer_encoded rs0 as_ [] Hs) as E2.
  rewrite app_nil_r in E2. rewrite E2. reflexivity.
Qed.

(** C3: for r and s in [1, n-1] with s in the low half, serializing into a
    buffer with room for the encoding succeeds, and parsing the bytes
    produced gives back exactly (r, s). *)
Theorem ecdsa_sig_serialize_parse_roundtrip (sig : list byte) (size : Z)
    (r s rr0 rs0 : Scalar.scalar) :
  1 <= r <= Scalar.n - 1 ->
  1 <= s <= Scalar.n - 1 ->
  s <= Scalar.n / 2 ->
  der_sig_size r s <= size ->
  der_sig_size r s <= Z.of_nat (length sig) ->
  fst (fst (ecdsa_sig_serialize sig size r s)) = 1
  /\ ecdsa_sig_parse rr0 rs0
       (firstn (Z.to_nat (snd (ecdsa_sig_serialize sig size r s)))
          (snd (fst (ecdsa_sig_serialize sig size r s))))
     = (1, r, s).
Proof.
  intros Hr Hs _ Hsize Hroom.
  destruct (ecdsa_sig_serialize_cases sig size r s) as (_ & _ & Hok).
  rewrite (Hok Hsize Hroom). cbn [fst snd]. split; [reflexivity|].
  rewrite <- der_sig_bytes_length, Nat2Z.id.
  rewrite firstn_app, firstn_all, Nat.sub_diag, firstn_O, app_nil_r.
  apply ecdsa_sig_parse_encoded; lia.
Qed.

Lemma ecdsa_sig_serialize_parse_roundtrip_witness :
  fst (fst (ecdsa_sig_serialize (repeat x00 72) 72 (Scalar.n - 1) 200)) = 1
  /\ ecdsa_sig_parse 0 0
       (firstn
          (Z.to_nat
             (snd (ecdsa_sig_serialize (repeat x00 72) 72 (Scalar.n - 1) 200)))
          (snd (fst
             (ecdsa_sig_serialize (repeat x00 72) 72 (Scalar.n - 1) 200))))
     = (1, Scalar.n - 1, 200).
Proof.
  apply (ecdsa_sig_serialize_parse_roundtrip
           (repeat x00 72) 72 (Scalar.n - 1) 200 0 0).
  - vm_compute. split; discriminate.
  - vm_compute. split; discriminate.
  - vm_compute. discriminate.
  - vm_compute. discriminate.
  - vm_compute. discriminate.
Defined.

(** ** Scalar arithmetic *)

Lemma scalar_n_pos : 0 < Scalar.n.
Proof. reflexivity. Qed.

Lemma scalar_mod_range (a : Z) : 0 <= a mod Scalar.n < Scalar.n.
Proof. apply Z.mod_pos_bound. exact scalar_n_pos. Qed.

Lemma powmod_pos_spec (a : Z) (e : positive) (m : Z) :
  0 < m -> Scalar.powmod_pos a e m = (a ^ Zpos e) mod m.
Proof.
  intros Hm. induction e as [e IH|e IH|].
  - cbn [Scalar.powmod_pos]. rewrite IH.
    rewrite <- (Z.mul_mod (a ^ Zpos e) (a ^ Zpos e) m) by lia.
    rewrite Z.mul_mod_idemp_l by lia. f_equal.
    replace (Zpos e~1) with (Zpos e + Zpos e + 1) by lia.
    rewrite !Z.pow_add_r, Z.pow_1_r by lia. reflexivity.
  - cbn [Scalar.powmod_pos]. rewrite IH.
    rewrite <- (Z.mul_mod (a ^ Zpos e) (a ^ Zpos e) m) by lia. f_equal.
    replace (Zpos e~0) with (Zpos e + Zpos e) by lia.
    rewrite Z.pow_add_r by lia. reflexivity.
  - cbn [Scalar.powmod_pos]. now rewrite Z.pow_1_r.
Qed.

Lemma scalar_negate_mod (a : Z) :
  Scalar.negate (a mod Scalar.n) = (- a) mod Scalar.n.
Proof.
  unfold Scalar.negate. pose proof scalar_n_pos.
  rewrite Zminus_mod_idemp_r.
  replace (Scalar.n - a) with (- a + 1 * Scalar.n) by ring.
  apply Z.mod_add. lia.
Qed.

Lemma scalar_negate_as_mod (a : Z) :
  Scalar.negate a = (- a) mod Scalar.n.
Proof.
  unfold Scalar.negate. pose proof scalar_n_pos.
  replace (Scalar.n - a) with (- a + 1 * Scalar.n) by ring.
  apply Z.mod_add. lia.
Qed.

Lemma scalar_negate_nonzero (a : Scalar.scalar) :
  0 < a < Scalar.n -> Scalar.negate a = Scalar.n - a.
Proof.
  intros Ha. unfold Scalar.negate. apply Z.mod_small. lia.
Qed.

Lemma scalar_negate_is_zero (a : Scalar.scalar) :
  0 <= a < Scalar.n ->
  Scalar.is_zero (Scalar.negate a) = Scalar.is_zero a.
Proof.
  intros Ha. unfold Scalar.is_zero.
  destruct (Z.eqb_spec a 0) as [E|E].
  - subst a. reflexivity.
  - rewrite scalar_negate_nonzero by lia.
    destruct (Z.eqb_spec (Scalar.n - a) 0); [lia | reflexivity].
Qed.

Lemma scalar_mul_negate_l (a b : Z) :
  Scalar.mul (Scalar.negate a) b = Scalar.negate (Scalar.mul a b).
Proof.
  unfold Scalar.mul. rewrite scalar_negate_mod, scalar_negate_as_mod.
  pose proof scalar_n_pos.
  rewrite Z.mul_mod_idemp_l by lia. f_equal. ring.
Qed.

Lemma scalar_inverse_negate (a : Z) :
  Scalar.inverse (Scalar.negate a) = Scalar.negate (Scalar.inverse a).
Proof.
  unfold Scalar.inverse. pose proof scalar_n_pos.
  rewrite !powmod_pos_spec by lia.
  rewrite scalar_negate_mod, scalar_negate_as_mod.
  rewrite <- Zpower_mod by lia.
  rewrite Z.pow_opp_odd; [reflexivity|].
  apply Z.odd_spec. reflexivity.
Qed.

(** ** Verification *)

Lemma ecdsa_constants :
  ecdsa_const_order_as_fe = Scalar.n
  /\ ecdsa_const_p_minus_order = Field.p - Scalar.n.
Proof. split; reflexivity. Qed.

Section VerifyProperties.
Import Field Group.

Variable ecmult_context : Type.
Variable ecmult :
  ecmult_context -> gej -> Scalar.scalar -> Scalar.scalar -> gej.

(** C1: a signature (r, s) and the signature (r, n - s) with the negated s
    get the same verdict from the verifier, for every public key and
    message, given the contract of the point multiplication. *)
Theorem ecdsa_sig_verify_negated_s (ctx : ecmult_context)
    (sigr sigs : Scalar.scalar) (pubkey : ge) (message : Scalar.scalar) :
  ecmult_negation_contract ecmult ->
  Scalar.wf sigs ->
  ecdsa_sig_verify _ ecmult ctx sigr (Scalar.negate sigs) pubkey message
  = ecdsa_sig_verify _ ecmult ctx sigr sigs pubkey message
  /\ (sigs <> 0 -> Scalar.negate sigs = Scalar.n - sigs).
Proof.
  intros Hec Hs. split.
  - unfold ecdsa_sig_verify, Scalar.inverse_var.
    rewrite (scalar_negate_is_zero sigs Hs).
    destruct (Scalar.is_zero sigr || Scalar.is_zero sigs); [reflexivity|].
    rewrite scalar_inverse_negate, !scalar_mul_negate_l.
    destruct (Hec ctx (gej_set_ge pubkey)
                (Scalar.mul (Scalar.inverse sigs) sigr)
                (Scalar.mul (Scalar.inverse sigs) message)
                (scalar_mod_range _) (scalar_mod_range _)) as [Hinf Hx].
    cbn zeta. rewrite Hinf, !Hx. reflexivity.
  - intros Hnz. apply scalar_negate_nonzero. unfold Scalar.wf in Hs. lia.
Qed.

(** C2: past the zero tests, when the recomputed point is not at infinity
    and the first x-coordinate test fails, the verifier rejects if xr is at
    least p - n (that is, xr + n >= p), and otherwise accepts exactly when
    (xr + n) * z^2 = x (mod p) holds for the recomputed point. *)
Theorem ecdsa_sig_verify_second_candidate (ctx : ecmult_context)
    (sigr sigs : Scalar.scalar) (pubkey : ge) (message : Scalar.scalar) :
  let sn := Scalar.inverse_var sigs in
  let pr := ecmult ctx (gej_set_ge pubkey)
              (Scalar.mul sn sigr) (Scalar.mul sn message) in
  let xr := fe_set_b32 (Scalar.get_b32 sigr) in
  Scalar.is_zero sigr = false ->
  Scalar.is_zero sigs = false ->
  gej_is_infinity pr = false ->
  (xr * (gej_z pr * gej_z pr)) mod p <> gej_x pr mod p ->
  (p - Scalar.n <= xr <-> p <= xr + Scalar.n)
  /\ (p - Scalar.n <= xr -> ecdsa_sig_verify _ ecmult ctx sigr sigs pubkey message = 0)
  /\ (xr < p - Scalar.n ->
      (ecdsa_sig_verify _ ecmult ctx sigr sigs pubkey message = 1
       <-> ((xr + Scalar.n) * (gej_z pr * gej_z pr)) mod p
           = gej_x pr mod p)
      /\ (ecdsa_sig_verify _ ecmult ctx sigr sigs pubkey message = 1
          \/ ecdsa_sig_verify _ ecmult ctx sigr sigs pubkey message = 0)).
Proof.
  intros sn pr xr Hr Hs Hinf Hfirst.
  destruct ecdsa_constants as [Hn Hpn].
  split; [lia|].
  unfold ecdsa_sig_verify. rewrite Hr, Hs. cbn [orb].
  fold sn. fold pr. rewrite Hinf. fold xr.
  assert (H1 : gej_eq_x_var xr pr = false).
  { unfold gej_eq_x_var. apply Z.eqb_neq. exact Hfirst. }
  rewrite H1. rewrite Hpn, Hn. unfold fe_cmp_var, fe_add.
  split.
  - intros Hge. destruct (Z.compare_spec xr (p - Scalar.n)) as [E|E|E];
      try reflexivity. lia.
  - intros Hlt. destruct (Z.compare_spec xr (p - Scalar.n)) as [E|E|E];
      try lia.
    cbn [Z.geb Z.compare]. unfold gej_eq_x_var.
    destruct (Z.eqb_spec ((xr + Scalar.n) * (gej_z pr * gej_z pr) mod p)
                (gej_x pr mod p)) as [E2|E2].
    + split; [|left; reflexivity]. split; [intros _; exact E2 | reflexivity].
    + split; [|right; reflexivity].
      split; [discriminate | intros E3; contradiction].
Qed.

End VerifyProperties.

(** ** Signing *)



Section SignProperties.
Import Field Group.

Variable ecmult_gen_context : Type.
Variable ecmult_gen : ecmult_gen_context -> Scalar.scalar -> gej.
Variable ge_set_gej : gej -> ge.


End SignProperties.

(** ** The stand-in for the curve *)

Lemma toy_point_of_dlog_opp (e : Z) :
  Group.gej_x (ToyCurve.point_of_dlog ((- e) mod Scalar.n))
    = Group.gej_x (ToyCurve.point_of_dlog (e mod Scalar.n))
  /\ Group.gej_z (ToyCurve.point_of_dlog ((- e) mod Scalar.n))
     = Group.gej_z (ToyCurve.point_of_dlog (e mod Scalar.n)).
Proof.
  pose proof scalar_n_pos as Hn.
  pose proof (scalar_mod_range e) as He.
  unfold ToyCurve.point_of_dlog, ToyCurve.x_of_dlog.
  cbn [Group.gej_x Group.gej_z].
  destruct (Z.eq_dec (e mod Scalar.n) 0) as [E|E].
  - rewrite Z.mod_opp_l_z by lia. rewrite E. split; reflexivity.
  - rewrite Z.mod_opp_l_nz by lia.
    destruct (Z.eqb_spec (Scalar.n - e mod Scalar.n) 0); [lia|].
    destruct (Z.eqb_spec (e mod Scalar.n) 0); [contradiction|].
    split; [lia | reflexivity].
Qed.

Lemma toy_ecmult_negation : ecmult_negation_contract ToyCurve.ecmult.
Proof.
  intros ctx a na ng _ _. unfold ToyCurve.ecmult.
  rewrite !scalar_negate_as_mod.
  pose proof scalar_n_pos as Hn.
  rewrite Z.add_mod, Z.mul_mod_idemp_l, Z.mod_mod, <- Z.add_mod by lia.
  replace (- na * Group.gej_y a + - ng) with (- (na * Group.gej_y a + ng)) by ring.
  destruct (toy_point_of_dlog_opp (na * Group.gej_y a + ng)) as [Hx Hz].
  unfold Group.gej_is_infinity, Group.gej_eq_x_var. rewrite Hx, Hz.
  split; [reflexivity | intros x; reflexivity].
Qed.


(** Instances on the stand-in. *)

Lemma ecdsa_sig_verify_negated_s_witness :
  ecdsa_sig_verify unit ToyCurve.ecmult tt 1 (Scalar.negate 3)
    (Group.mk_ge 0 2) 4
  = ecdsa_sig_verify unit ToyCurve.ecmult tt 1 3 (Group.mk_ge 0 2) 4
  /\ (3 <> 0 -> Scalar.negate 3 = Scalar.n - 3).
Proof.
  apply (ecdsa_sig_verify_negated_s unit ToyCurve.ecmult tt 1 3
           (Group.mk_ge 0 2) 4 toy_ecmult_negation).
  unfold Scalar.wf. vm_compute. split; [discriminate | reflexivity].
Defined.

Lemma ecdsa_sig_verify_second_candidate_witness :
  ecdsa_sig_verify unit ToyCurve.ecmult tt 1 3 (Group.mk_ge 0 2) 4 = 1.
Proof.
  destruct (ecdsa_sig_verify_second_candidate unit ToyCurve.ecmult tt 1 3
              (Group.mk_ge 0 2) 4) as (_ & _ & H).
  - reflexivity.
  - reflexivity.
  - vm_compute. reflexivity.
  - vm_compute. discriminate.
  - destruct H as [[_ H] _].
    + vm_compute. reflexivity.
    + apply H. vm_compute. reflexivity.
Defined.


(** * Further properties of the codec, the verifier and the signer *)

(** ** The length decoder, both ways *)

Ltac pow_consts :=
  change (2 ^ 31) with 2147483648 in *;
  change (2 ^ 64) with 18446744073709551616 in *.

Lemma be_acc_ge (l : list byte) :
  forall acc : Z, 0 <= acc -> acc <= be_acc acc l.
Proof.
  induction l as [|b l IH]; intros acc Hacc; cbn [be_acc]; [lia|].
  pose proof (byte_val_range b).
  specialize (IH (acc * 256 + byte_val b) ltac:(lia)). lia.
Qed.

Lemma int_of_size_t_small (z : Z) : 0 <= z < 2 ^ 31 -> int_of_size_t z = z.
Proof.
  intros Hz. unfold int_of_size_t.
  change (2 ^ (int_bits - 1)) with (2 ^ 31).
  change (2 ^ int_bits) with (2 ^ 32).
  rewrite Z.mod_small; lia.
Qed.

Lemma size_t_wrap_small (z : Z) : 0 <= z < 2 ^ 64 -> size_t_wrap z = z.
Proof. intros Hz. unfold size_t_wrap. apply Z.mod_small. exact Hz. Qed.

Lemma size_t_wrap_le (z : Z) : 0 <= z -> 0 <= size_t_wrap z <= z.
Proof.
  intros Hz. unfold size_t_wrap. split.
  - apply Z.mod_pos_bound. reflexivity.
  - apply Z.mod_le; [exact Hz | reflexivity].
Qed.

Lemma shiftl_8 (a : Z) : 0 <= a -> Z.shiftl a 8 = a * 256.
Proof. intros Ha. rewrite Z.shiftl_mul_pow2 by lia. reflexivity. Qed.

Lemma der_read_len_acc (ret : Z) (b : byte) :
  0 <= ret < 2 ^ 31 ->
  Z.lor (size_t_wrap (Z.shiftl ret 8)) (byte_val b) = ret * 256 + byte_val b.
Proof.
  intros Hret. pow_consts.
  rewrite (size_t_wrap_small (Z.shiftl ret 8))
    by (rewrite shiftl_8 by lia; pow_consts; lia).
  apply lor_shiftl_byte. lia.
Qed.

(** The loop on a buffer of less than 2^31 bytes: it fails, or it has
    accumulated the big-endian value of the octets, which is at least 128
    and does not exceed the bytes left after them. *)
Lemma der_read_len_loop_inv (lenleft : nat) :
  forall (ret : Z) (sig : list byte),
    Z.of_nat (length sig) < 2 ^ 31 ->
    0 <= ret <= Z.of_nat (length sig) ->
    (lenleft <= length sig)%nat ->
    fst (der_read_len_loop lenleft ret sig) = -1
    \/ (der_read_len_loop lenleft ret sig
        = (be_acc ret (firstn lenleft sig), skipn lenleft sig)
        /\ 128 <= be_acc ret (firstn lenleft sig)
               <= Z.of_nat (length (skipn lenleft sig))).
Proof.
  induction lenleft as [|l IH]; intros ret sig Hbuf Hret Hlen.
  - cbn [der_read_len_loop firstn skipn be_acc].
    destruct (Z.ltb_spec ret 128); [left; reflexivity|].
    right. rewrite int_of_size_t_small by (pow_consts; lia).
    split; [reflexivity | lia].
  - destruct sig as [|b sig]; [simpl in Hlen; lia|].
    cbn [length] in *. cbn [der_read_len_loop firstn skipn be_acc].
    unfold peek. cbn [nth tl].
    pose proof (byte_val_range b) as Hb.
    rewrite der_read_len_acc by lia. pow_consts.
    rewrite size_t_wrap_small by lia. cbn [length].
    destruct (Z.gtb_spec (ret * 256 + byte_val b + Z.of_nat (S l))
                (Z.of_nat (S (length sig)))) as [Hgt|Hle];
      [left; reflexivity|].
    apply IH; lia.
Qed.

(** The loop on the octets of a value of at least 128 that fits. *)
Lemma der_read_len_loop_complete (octets : list byte) :
  forall (ret : Z) (rest : list byte),
    0 <= ret ->
    128 <= be_acc ret octets < 2 ^ 31 ->
    be_acc ret octets <= Z.of_nat (length rest) ->
    der_read_len_loop (length octets) ret (octets ++ rest)
    = (be_acc ret octets, rest).
Proof.
  induction octets as [|b octets IH]; intros ret rest Hret Hv Hfit.
  - cbn [length app der_read_len_loop be_acc] in *.
    destruct (Z.ltb_spec ret 128); [lia|].
    rewrite int_of_size_t_small by lia. reflexivity.
  - cbn [length app der_read_len_loop be_acc] in *.
    unfold peek. cbn [nth tl].
    pose proof (byte_val_range b) as Hb.
    pose proof (be_acc_ge octets (ret * 256 + byte_val b) ltac:(lia)) as Hm.
    rewrite der_read_len_acc by lia. pow_consts.
    pose proof (size_t_wrap_le
                  (ret * 256 + byte_val b + Z.of_nat (S (length octets)))
                  ltac:(lia)) as Hw.
    cbn [length]. rewrite length_app.
    destruct (Z.gtb_spec
                (size_t_wrap
                   (ret * 256 + byte_val b + Z.of_nat (S (length octets))))
                (Z.of_nat (S (length octets + length rest)))) as [Hgt|Hle];
      [lia|].
    apply IH; lia.
Qed.

Lemma byte_land_sum (c : byte) :
  byte_val c = Z.land (byte_val c) 0x80 + Z.land (byte_val c) 0x7F.
Proof. destruct c; reflexivity. Qed.

Lemma byte_high_split (c : byte) :
  128 <= byte_val c ->
  Z.land (byte_val c) 0x80 = 0x80
  /\ byte_val c = 0x80 + Z.land (byte_val c) 0x7F
  /\ 0 <= Z.land (byte_val c) 0x7F < 128.
Proof.
  intros Hc. pose proof (byte_val_range c) as Hr.
  pose proof (byte_land_sum c) as Hsum.
  pose proof (byte_land_80 c) as H80.
  destruct (Z.ltb_spec (byte_val c) 128); [lia|].
  rewrite H80 in *. repeat split; lia.
Qed.

(** What a successful decode tells about the input. *)
Lemma der_read_len_inv (sig : list byte) (v : Z) (rest : list byte) :
  Z.of_nat (length sig) < 2 ^ 31 ->
  der_read_len sig = (v, rest) -> 0 <= v ->
  der_len_encodes sig v rest.
Proof.
  intros Hbuf Hrd Hv. destruct sig as [|c sig1]; cbn [der_read_len] in Hrd.
  { inversion Hrd. lia. }
  cbn [length] in Hbuf. pose proof (byte_val_range c) as Hc.
  destruct (Z.eqb_spec (byte_val c) 0xFF); [inversion Hrd; lia|].
  destruct (Z.eqb_spec (Z.land (byte_val c) 0x80) 0) as [Hlow|Hhigh].
  { inversion Hrd. subst. left. exists c.
    rewrite byte_land_80 in Hlow.
    destruct (Z.ltb_spec (byte_val c) 128); [|discriminate].
    repeat split; lia. }
  destruct (Z.eqb_spec (byte_val c) 0x80); [inversion Hrd; lia|].
  assert (H128 : 128 <= byte_val c).
  { rewrite byte_land_80 in Hhigh.
    destruct (Z.ltb_spec (byte_val c) 128); [contradiction | lia]. }
  destruct (byte_high_split c H128) as (_ & Hsplit & Hk).
  set (lenleft := Z.land (byte_val c) 0x7F) in *.
  destruct (Z.gtb_spec lenleft (Z.of_nat (length sig1)));
    [inversion Hrd; lia|].
  destruct (Z.eqb_spec (peek 0 sig1) 0) as [|Hnz]; [inversion Hrd; lia|].
  destruct (Z.gtb_spec lenleft sizeof_size_t); [inversion Hrd; lia|].
  unfold sizeof_size_t in *.
  destruct (der_read_len_loop_inv (Z.to_nat lenleft) 0 sig1
              ltac:(lia) ltac:(lia) ltac:(lia)) as [Hfail|[Hok Hrange]].
  { rewrite Hrd in Hfail. cbn [fst] in Hfail. lia. }
  rewrite Hrd in Hok. inversion Hok. subst v rest.
  right. exists (Z.to_nat lenleft), (firstn (Z.to_nat lenleft) sig1).
  rewrite firstn_skipn, length_firstn, Z2Nat.id by lia.
  rewrite <- Hsplit, byte_of_Z_val.
  split; [reflexivity|]. split; [lia|]. split; [lia|].
  split; [rewrite peek_firstn by lia; exact Hnz|].
  split; [reflexivity | exact Hrange].
Qed.

(** The decode of a long-form encoding. *)
Lemma der_read_len_long (octets rest : list byte) :
  (1 <= length octets <= 8)%nat ->
  peek 0 octets <> 0 ->
  128 <= be_decode octets < 2 ^ 31 ->
  be_decode octets <= Z.of_nat (length rest) ->
  der_read_len (byte_of_Z (0x80 + Z.of_nat (length octets)) :: octets ++ rest)
  = (be_decode octets, rest).
Proof.
  intros Hk Hnz Hv Hfit. cbn [der_read_len].
  rewrite byte_val_of_Z, Z.mod_small by lia.
  set (k := Z.of_nat (length octets)) in *.
  assert (E7F : Z.land (0x80 + k) 0x7F = k).
  { pose proof (byte_land_7F (byte_of_Z (0x80 + k))) as H.
    rewrite byte_val_of_Z, Z.mod_small in H by lia. rewrite H.
    replace (128 + k) with (k + 1 * 128) by lia.
    rewrite Z.mod_add, Z.mod_small; lia. }
  assert (E80 : Z.land (0x80 + k) 0x80 = 0x80).
  { pose proof (byte_land_80 (byte_of_Z (0x80 + k))) as H.
    rewrite byte_val_of_Z, Z.mod_small in H by lia. rewrite H.
    destruct (Z.ltb_spec (128 + k) 128); [lia | reflexivity]. }
  destruct (Z.eqb_spec (0x80 + k) 0xFF); [lia|].
  rewrite E80. cbn [Z.eqb].
  destruct (Z.eqb_spec (0x80 + k) 0x80); [lia|].
  rewrite E7F, length_app.
  destruct (Z.gtb_spec k (Z.of_nat (length octets + length rest))); [lia|].
  assert (Hpk : peek 0 (octets ++ rest) = peek 0 octets).
  { destruct octets; [simpl in Hk; lia | reflexivity]. }
  rewrite Hpk.
  destruct (Z.eqb_spec (peek 0 octets) 0); [contradiction|].
  unfold sizeof_size_t. destruct (Z.gtb_spec k 8); [lia|].
  subst k. rewrite Nat2Z.id.
  apply der_read_len_loop_complete; unfold be_decode in *; lia.
Qed.

(** The decoder never returns a negative value other than -1. *)
Lemma der_read_len_sentinel (sig : list byte) :
  Z.of_nat (length sig) < 2 ^ 31 ->
  fst (der_read_len sig) = -1 \/ 0 <= fst (der_read_len sig).
Proof.
  intros Hbuf. destruct sig as [|c sig1]; cbn [der_read_len];
    [left; reflexivity|].
  cbn [length] in Hbuf. pose proof (byte_val_range c) as Hc.
  destruct (byte_val c =? 0xFF); [left; reflexivity|].
  destruct (Z.land (byte_val c) 0x80 =? 0); [right; cbn [fst]; lia|].
  destruct (byte_val c =? 0x80); [left; reflexivity|].
  pose proof (byte_land_7F c) as H7F.
  pose proof (Z.mod_pos_bound (byte_val c) 128 ltac:(lia)) as Hm.
  destruct (Z.gtb_spec (Z.land (byte_val c) 0x7F) (Z.of_nat (length sig1)));
    [left; reflexivity|].
  destruct (peek 0 sig1 =? 0); [left; reflexivity|].
  destruct (Z.land (byte_val c) 0x7F >? sizeof_size_t); [left; reflexivity|].
  destruct (der_read_len_loop_inv (Z.to_nat (Z.land (byte_val c) 0x7F)) 0
              sig1 ltac:(lia) ltac:(lia) ltac:(lia)) as [Hfail|[Hok Hrange]].
  - left. exact Hfail.
  - right. rewrite Hok. cbn [fst]. lia.
Qed.

(** X1: on a buffer of less than 2^31 bytes the length decoder returns -1
    or a non-negative length, and it returns the non-negative length [v]
    and the cursor [rest] exactly when the input starts with the minimal
    DER encoding of [v] followed by [rest]: one octet below 128, or
    0x80 + k and k <= 8 octets with a non-zero first octet and a value of at
    least 128 that fits in what follows. *)
Theorem der_read_len_decodes_iff (sig : list byte) (v : Z)
    (rest : list byte) :
  Z.of_nat (length sig) < 2 ^ 31 ->
  (fst (der_read_len sig) = -1 \/ 0 <= fst (der_read_len sig))
  /\ (0 <= v ->
      (der_read_len sig = (v, rest) <-> der_len_encodes sig v rest)).
Proof.
  intros Hbuf. split; [apply der_read_len_sentinel; exact Hbuf|].
  intros Hv. split.
  - intros Hrd. apply der_read_len_inv; assumption.
  - intros [(c & -> & Hc & Hr)|(k & octets & -> & Hk & Hk8 & Hnz & Hd & Hr)].
    + rewrite <- (byte_of_Z_val c), Hc. apply der_read_len_short. exact Hr.
    + subst k v. cbn [length] in Hbuf. rewrite length_app in Hbuf.
      apply der_read_len_long; try assumption; pow_consts; lia.
Qed.

Lemma der_read_len_decodes_iff_witness :
  der_read_len
    (["129"%byte; "128"%byte] ++ repeat x00 128)
  = (128, repeat x00 128)
  <-> der_len_encodes (["129"%byte; "128"%byte] ++ repeat x00 128) 128
        (repeat x00 128).
Proof.
  apply (der_read_len_decodes_iff
           (["129"%byte; "128"%byte] ++ repeat x00 128) 128
           (repeat x00 128)).
  - vm_compute. reflexivity.
  - lia.
Defined.

(** ** The integer parser, both ways *)

Lemma der_integer_padded_firstn (body : list byte) (k : nat) :
  (0 < k <= length body)%nat ->
  der_integer_padded (firstn k body)
  = ((peek 0 body =? 0x00) && (Z.of_nat k >? 1)
     && (Z.land (peek 1 body) 0x80 =? 0x00))
    || ((peek 0 body =? 0xFF) && (Z.of_nat k >? 1)
        && (Z.land (peek 1 body) 0x80 =? 0x80)).
Proof.
  intros Hk. unfold der_integer_padded.
  rewrite length_firstn, (peek_firstn 0) by lia.
  replace (Nat.min k (length body)) with k by lia.
  assert (Hgt : (Z.of_nat k >? 1) = (1 <? k)%nat).
  { destruct (Z.gtb_spec (Z.of_nat k) 1), (Nat.ltb_spec 1 k);
      lia || reflexivity. }
  rewrite Hgt. destruct (Nat.ltb_spec 1 k) as [H1|H1].
  - rewrite (peek_firstn 1) by lia. reflexivity.
  - rewrite !andb_false_r. reflexivity.
Qed.

Lemma der_integer_value_range (content : list byte) :
  0 <= der_integer_value content < Scalar.n.
Proof.
  unfold der_integer_value, der_integer_overflows.
  pose proof scalar_n_pos.
  pose proof (be_decode_range (drop_zeros content)) as Hr.
  destruct (Z.land (peek 0 content) 128 =? 128); cbn [orb]; [lia|].
  destruct (32 <? length (drop_zeros content))%nat; cbn [orb]; [lia|].
  destruct (Z.leb_spec Scalar.n (be_decode (drop_zeros content))); lia.
Qed.

(** What a successful parse of an INTEGER tells about the input. *)
Lemma der_parse_integer_inv (r0 : Scalar.scalar) (sig : list byte)
    (v : Scalar.scalar) (rest : list byte) :
  der_parse_integer r0 sig = (1, v, rest) ->
  exists content : list byte,
    der_integer_accepts sig content rest /\ v = der_integer_value content.
Proof.
  intros Hp. pose proof Hp as Hp0. unfold der_parse_integer in Hp.
  destruct sig as [|t sig1]; [discriminate Hp|].
  cbn [length Nat.eqb orb tl] in Hp. unfold peek at 1 in Hp. cbn [nth] in Hp.
  destruct (Z.eqb_spec (byte_val t) 0x02) as [Htag|]; [|discriminate Hp].
  cbn [negb] in Hp.
  destruct (der_read_len sig1) as [rlen body] eqn:Hlen.
  destruct (Z.leb_spec rlen 0); [discriminate Hp|].
  destruct (Z.gtb_spec rlen (Z.of_nat (length body))); [discriminate Hp|].
  cbn [orb] in Hp.
  assert (Hr : 0 < rlen <= Z.of_nat (length body)) by lia.
  assert (Hpad : der_integer_padded (firstn (Z.to_nat rlen) body) = false).
  { rewrite der_integer_padded_firstn, Z2Nat.id by lia.
    destruct ((peek 0 body =? 0) && (rlen >? 1)
              && (Z.land (peek 1 body) 128 =? 0)); [discriminate Hp|].
    destruct ((peek 0 body =? 255) && (rlen >? 1)
              && (Z.land (peek 1 body) 128 =? 128)); [discriminate Hp|].
    reflexivity. }
  rewrite (der_parse_integer_body r0 t sig1 body rlen Htag Hlen Hr Hpad)
    in Hp0.
  injection Hp0 as Hv Hrest.
  exists (firstn (Z.to_nat rlen) body). split; [|symmetry; exact Hv].
  exists t, sig1, body, rlen. repeat split; try assumption; try lia.
  symmetry; exact Hrest.
Qed.

Lemma der_parse_integer_intro (r0 : Scalar.scalar)
    (sig content rest : list byte) :
  der_integer_accepts sig content rest ->
  der_parse_integer r0 sig = (1, der_integer_value content, rest).
Proof.
  intros (t & sig1 & body & rlen & -> & Htag & Hlen & Hr & -> & -> & Hpad).
  apply der_parse_integer_body; assumption.
Qed.

(** X2: the integer parser returns 1 with the scalar [v] and the cursor
    [rest] exactly when the input starts with the tag 0x02, a length of at
    least one that fits, and contents octets without excessive padding,
    [v] being the value of the contents (zero on overflow) and [rest] what
    follows them; in every other case it returns 0 and the scalar is as it
    was on entry. *)
Theorem der_parse_integer_accepts_iff (r0 : Scalar.scalar)
    (sig : list byte) (v : Scalar.scalar) (rest : list byte) :
  (der_parse_integer r0 sig = (1, v, rest)
   <-> exists content : list byte,
         der_integer_accepts sig content rest
         /\ v = der_integer_value content)
  /\ (fst (fst (der_parse_integer r0 sig)) = 1
      \/ (fst (fst (der_parse_integer r0 sig)) = 0
          /\ snd (fst (der_parse_integer r0 sig)) = r0)).
Proof.
  split.
  - split.
    + apply der_parse_integer_inv.
    + intros (content & Hacc & ->). apply der_parse_integer_intro. exact Hacc.
  - destruct (der_parse_integer_failure_frame r0 sig) as [H|H];
      [right; exact H | left; exact H].
Qed.

(** ** The signature parser: outputs, canonical form, prefix freedom *)

Lemma ecdsa_sig_parse_inv (rr0 rs0 : Scalar.scalar) (sig : list byte)
    (r s : Scalar.scalar) :
  ecdsa_sig_parse rr0 rs0 sig = (1, r, s) ->
  exists (c : byte) (sig1 body after_r : list byte),
    sig = c :: sig1 /\ byte_val c = 0x30
    /\ der_read_len sig1 = (Z.of_nat (length body), body)
    /\ der_parse_integer rr0 body = (1, r, after_r)
    /\ der_parse_integer rs0 after_r = (1, s, []).
Proof.
  unfold ecdsa_sig_parse. destruct sig as [|c sig1]; [discriminate|].
  cbn [length Nat.eqb orb tl]. unfold peek at 1. cbn [nth].
  destruct (Z.eqb_spec (byte_val c) 0x30) as [Htag|]; [|discriminate].
  cbn [negb].
  destruct (der_read_len sig1) as [seqlen body] eqn:Hlen.
  destruct ((seqlen <? 0) || (seqlen >? Z.of_nat (length body)));
    [discriminate|].
  destruct (Z.eqb_spec seqlen (Z.of_nat (length body))) as [->|];
    [|discriminate].
  cbn [negb].
  pose proof (der_parse_integer_failure_frame rr0 body) as F1.
  destruct (der_parse_integer rr0 body) as [[ok1 rr1] after_r] eqn:Hr.
  cbn [fst snd] in F1. destruct F1 as [[-> _]| ->]; [discriminate|].
  cbn [Z.eqb].
  pose proof (der_parse_integer_failure_frame rs0 after_r) as F2.
  destruct (der_parse_integer rs0 after_r) as [[ok2 rs2] after_s] eqn:Hs.
  cbn [fst snd] in F2. destruct F2 as [[-> _]| ->]; [discriminate|].
  cbn [Z.eqb].
  destruct after_s as [|x after_s]; cbn [length Nat.eqb negb];
    [|discriminate].
  intros E. injection E as -> ->.
  exists c, sig1, body, after_r.
  split; [reflexivity|]. split; [exact Htag|]. split; [exact Hlen|].
  split; [exact Hr | exact Hs].
Qed.

Lemma ecdsa_sig_parse_intro (rr0 rs0 : Scalar.scalar) (c : byte)
    (sig1 body after_r : list byte) (r s : Scalar.scalar) :
  byte_val c = 0x30 ->
  der_read_len sig1 = (Z.of_nat (length body), body) ->
  der_parse_integer rr0 body = (1, r, after_r) ->
  der_parse_integer rs0 after_r = (1, s, []) ->
  ecdsa_sig_parse rr0 rs0 (c :: sig1) = (1, r, s).
Proof.
  intros Htag Hlen Hr Hs. unfold ecdsa_sig_parse.
  cbn [length Nat.eqb orb tl]. unfold peek at 1. cbn [nth].
  rewrite Htag, Hlen. cbn [Z.eqb Pos.eqb negb].
  destruct (Z.ltb_spec (Z.of_nat (length body)) 0); [lia|].
  rewrite Z.gtb_ltb, Z.ltb_irrefl, Z.eqb_refl. cbn [orb negb].
  rewrite Hr. cbn [Z.eqb]. rewrite Hs. reflexivity.
Qed.

Lemma ecdsa_sig_parse_flag (rr0 rs0 : Scalar.scalar) (sig : list byte) :
  fst (fst (ecdsa_sig_parse rr0 rs0 sig)) = 0
  \/ exists r s : Scalar.scalar, ecdsa_sig_parse rr0 rs0 sig = (1, r, s).
Proof.
  unfold ecdsa_sig_parse.
  destruct ((length sig =? 0)%nat || negb (peek 0 sig =? 48));
    [left; reflexivity|].
  destruct (der_read_len (tl sig)) as [seqlen body].
  destruct ((seqlen <? 0) || (seqlen >? Z.of_nat (length body)));
    [left; reflexivity|].
  destruct (negb (seqlen =? Z.of_nat (length body))); [left; reflexivity|].
  destruct (der_parse_integer rr0 body) as [[ok1 rr1] after_r].
  destruct (ok1 =? 0); [left; reflexivity|].
  destruct (der_parse_integer rs0 after_r) as [[ok2 rs2] after_s].
  destruct (ok2 =? 0); [left; reflexivity|].
  destruct (negb (length after_s =? 0)%nat); [left; reflexivity|].
  right. exists rr1, rs2. reflexivity.
Qed.

(** X3: when the signature parser succeeds, both scalars it stores are
    reduced (in [0, n)) and they depend on the input bytes only, not on
    what the outputs held on entry. *)
Theorem ecdsa_sig_parse_outputs (rr0 rs0 : Scalar.scalar) (sig : list byte)
    (r s : Scalar.scalar) :
  ecdsa_sig_parse rr0 rs0 sig = (1, r, s) ->
  0 <= r < Scalar.n /\ 0 <= s < Scalar.n
  /\ forall rr1 rs1 : Scalar.scalar,
       ecdsa_sig_parse rr1 rs1 sig = (1, r, s).
Proof.
  intros Hp.
  destruct (ecdsa_sig_parse_inv _ _ _ _ _ Hp)
    as (c & sig1 & body & after_r & -> & Htag & Hlen & Hr & Hs).
  destruct (der_parse_integer_inv _ _ _ _ Hr) as (cr & Hacc_r & ->).
  destruct (der_parse_integer_inv _ _ _ _ Hs) as (cs & Hacc_s & ->).
  split; [apply der_integer_value_range|].
  split; [apply der_integer_value_range|].
  intros rr1 rs1.
  apply (ecdsa_sig_parse_intro rr1 rs1 c sig1 body after_r); try assumption.
  - apply der_parse_integer_intro. exact Hacc_r.
  - apply der_parse_integer_intro. exact Hacc_s.
Qed.

Lemma ecdsa_sig_parse_outputs_witness :
  0 <= 5 < Scalar.n /\ 0 <= 0 < Scalar.n
  /\ forall rr1 rs1 : Scalar.scalar,
       ecdsa_sig_parse rr1 rs1
         ["048"%byte; "006"%byte; "002"%byte; "001"%byte; "005"%byte;
          "002"%byte; "001"%byte; "133"%byte] = (1, 5, 0).
Proof.
  apply (ecdsa_sig_parse_outputs 7 8
           ["048"%byte; "006"%byte; "002"%byte; "001"%byte; "005"%byte;
            "002"%byte; "001"%byte; "133"%byte] 5 0).
  reflexivity.
Defined.

Lemma be_decode_inj (a : list byte) :
  forall b : list byte,
    length a = length b -> be_decode a = be_decode b -> a = b.
Proof.
  induction a as [|x a IH]; intros [|y b] Hlen Hval;
    try discriminate Hlen; [reflexivity|].
  cbn [length] in Hlen. injection Hlen as Hlen.
  rewrite !be_decode_cons, Hlen in Hval.
  pose proof (be_decode_range a) as Ha. rewrite Hlen in Ha.
  pose proof (be_decode_range b) as Hb.
  rewrite (Z.mul_comm (byte_val x)), (Z.mul_comm (byte_val y)) in Hval.
  destruct (Z.div_mod_unique _ _ _ _ _ (or_introl Ha) (or_introl Hb) Hval)
    as [Hq Hr].
  f_equal; [apply byte_val_inj; exact Hq | apply IH; assumption].
Qed.

Lemma drop_zeros_head (l : list byte) :
  drop_zeros l = []
  \/ exists (h : byte) (t : list byte),
       drop_zeros l = h :: t /\ byte_val h <> 0.
Proof.
  induction l as [|b l IH]; [left; reflexivity|].
  cbn [drop_zeros]. destruct (Z.eqb_spec (byte_val b) 0) as [E|E];
    [exact IH|]. right. exists b, l. split; [reflexivity | exact E].
Qed.

Lemma be_decode_nonzero_head (h : byte) (t : list byte) :
  byte_val h <> 0 -> 256 ^ Z.of_nat (length t) <= be_decode (h :: t).
Proof.
  intros Hh. rewrite be_decode_cons.
  pose proof (byte_val_range h). pose proof (be_decode_range t).
  assert (0 < 256 ^ Z.of_nat (length t)) by (apply Z.pow_pos_nonneg; lia).
  nia.
Qed.

(** Two strings without leading zero bytes and with the same value are the
    same string. *)
Lemma drop_zeros_unique (c c' : list byte) :
  be_decode c = be_decode c' -> drop_zeros c = drop_zeros c'.
Proof.
  intros Hval.
  rewrite <- (be_decode_drop_zeros c), <- (be_decode_drop_zeros c') in Hval.
  apply be_decode_inj; [|exact Hval].
  destruct (drop_zeros_head c) as [E|(h & t & E & Hh)];
    destruct (drop_zeros_head c') as [E'|(h' & t' & E' & Hh')];
    rewrite E, E' in *.
  - reflexivity.
  - pose proof (be_decode_nonzero_head h' t' Hh') as Hlow.
    assert (0 < 256 ^ Z.of_nat (length t')) by (apply Z.pow_pos_nonneg; lia).
    change (be_decode []) with 0 in Hval. lia.
  - pose proof (be_decode_nonzero_head h t Hh) as Hlow.
    assert (0 < 256 ^ Z.of_nat (length t)) by (apply Z.pow_pos_nonneg; lia).
    change (be_decode []) with 0 in Hval. lia.
  - pose proof (be_decode_nonzero_head h t Hh) as Hlow.
    pose proof (be_decode_nonzero_head h' t' Hh') as Hlow'.
    pose proof (be_decode_range (h :: t)) as Hup.
    pose proof (be_decode_range (h' :: t')) as Hup'.
    cbn [length] in *. rewrite Hval in *.
    assert (Z.of_nat (length t) < Z.of_nat (S (length t'))).
    { apply (Z.pow_lt_mono_r_iff 256); lia. }
    assert (Z.of_nat (length t') < Z.of_nat (S (length t))).
    { apply (Z.pow_lt_mono_r_iff 256); lia. }
    lia.
Qed.

Lemma der_int_canonical_shape (c : list byte) :
  der_int_canonical c ->
  (c = drop_zeros c /\ peek 0 c <> 0)
  \/ (c = x00 :: drop_zeros c
      /\ (drop_zeros c = [] \/ 0x80 <= peek 0 (drop_zeros c))).
Proof.
  intros (Hlen & Hhd & Hpad).
  destruct c as [|h t]; [simpl in Hlen; lia|].
  unfold peek in *. cbn [nth length drop_zeros] in *.
  destruct (Z.eqb_spec (byte_val h) 0) as [E|E].
  - right. assert (h = x00) by (apply byte_val_inj; exact E). subst h.
    destruct t as [|h2 t2].
    + split; [reflexivity | left; reflexivity].
    + specialize (Hpad ltac:(cbn [length]; lia) E). cbn [nth] in Hpad.
      cbn [drop_zeros].
      destruct (Z.eqb_spec (byte_val h2) 0); [lia|].
      split; [reflexivity | right; exact Hpad].
  - left. split; [reflexivity | exact E].
Qed.

(** The minimal non-negative form of a value is unique. *)
Lemma der_int_canonical_unique (c c' : list byte) :
  der_int_canonical c -> der_int_canonical c' ->
  be_decode c = be_decode c' -> c = c'.
Proof.
  intros Hc Hc' Hval.
  pose proof (drop_zeros_unique c c' Hval) as Hd.
  destruct (der_int_canonical_shape c Hc) as [[E Hnz]|[E Hz]];
    destruct (der_int_canonical_shape c' Hc') as [[E' Hnz']|[E' Hz']].
  - rewrite E, E', Hd. reflexivity.
  - exfalso. destruct Hc as (Hlen & Hhd & _).
    rewrite E in Hlen, Hhd. rewrite Hd in Hlen, Hhd.
    destruct Hz' as [Hz'|Hz']; [rewrite Hz' in Hlen; simpl in Hlen|]; lia.
  - exfalso. destruct Hc' as (Hlen & Hhd & _).
    rewrite E' in Hlen, Hhd. rewrite <- Hd in Hlen, Hhd.
    destruct Hz as [Hz|Hz]; [rewrite Hz in Hlen; simpl in Hlen|]; lia.
  - rewrite E, E', Hd. reflexivity.
Qed.

Lemma der_int_bytes_is_canonical (a : Scalar.scalar) :
  der_int_canonical (der_int_bytes a)
  /\ be_decode (der_int_bytes a) = be_decode (Scalar.get_b32 a).
Proof.
  destruct (get_b32_head a) as [Hl Hh].
  destruct (der_strip_spec 33 _ Hl ltac:(lia) Hh)
    as (I1 & I2 & I3 & I4 & I5 & _).
  fold (der_int_bytes a) in I1, I3, I4, I5.
  split.
  - split; [lia|]. split; [exact I4|]. intros Hk. apply I5. lia.
  - rewrite I3, be_decode_cons. change (byte_val x00) with 0. lia.
Qed.

(** Accepted contents that do not overflow are the serializer's encoding of
    their value. *)
Lemma der_integer_accepted_canonical (content : list byte) :
  (1 <= length content)%nat ->
  der_integer_padded content = false ->
  der_integer_value content <> 0 ->
  content = der_int_bytes (der_integer_value content).
Proof.
  intros Hlen Hpad Hnz.
  pose proof (der_integer_value_range content) as Hrange.
  unfold der_integer_value in *.
  destruct (der_integer_overflows content) eqn:Hov; [contradiction|].
  unfold der_integer_overflows in Hov.
  apply orb_false_elim in Hov. destruct Hov as [Hov _].
  apply orb_false_elim in Hov. destruct Hov as [Hhigh _].
  destruct (der_int_bytes_is_canonical (be_decode (drop_zeros content)))
    as [Hcan Hval].
  rewrite get_b32_decode in Hval by exact Hrange.
  apply der_int_canonical_unique; [|exact Hcan|].
  - assert (Hhd : peek 0 content < 0x80).
    { unfold peek in *. rewrite byte_land_80 in Hhigh.
      destruct (Z.ltb_spec (byte_val (nth 0 content x00)) 128);
        [assumption | discriminate]. }
    split; [exact Hlen|]. split; [exact Hhd|].
    intros H1 H0. unfold der_integer_padded in Hpad.
    apply orb_false_elim in Hpad. destruct Hpad as [Hpad _].
    rewrite H0 in Hpad. apply Nat.ltb_lt in H1. rewrite H1 in Hpad.
    cbn [Z.eqb andb] in Hpad. unfold peek in *.
    rewrite byte_land_80 in Hpad.
    destruct (Z.ltb_spec (byte_val (nth 1 content x00)) 128);
      [discriminate | lia].
  - rewrite Hval. symmetry. apply be_decode_drop_zeros.
Qed.

(** A parsed INTEGER with a non-zero value is the serializer's INTEGER. *)
Lemma der_parse_integer_canonical (r0 : Scalar.scalar) (sig : list byte)
    (v : Scalar.scalar) (rest : list byte) :
  Z.of_nat (length sig) < 2 ^ 31 ->
  der_parse_integer r0 sig = (1, v, rest) -> v <> 0 ->
  sig = byte_of_Z 0x02 :: byte_of_Z (Z.of_nat (length (der_int_bytes v)))
          :: der_int_bytes v ++ rest.
Proof.
  intros Hbuf Hp Hnz.
  destruct (der_parse_integer_inv _ _ _ _ Hp) as (content & Hacc & Hv).
  destruct Hacc
    as (t & sig1 & body & rlen & -> & Htag & Hlen & Hr & Hc & -> & Hpad).
  assert (Hclen : length content = Z.to_nat rlen).
  { rewrite Hc, length_firstn. lia. }
  assert (Hcan : content = der_int_bytes v).
  { rewrite Hv. apply der_integer_accepted_canonical;
      [lia | exact Hpad | rewrite <- Hv; exact Hnz]. }
  destruct (der_int_bytes_length v) as [Hl33 _].
  cbn [length] in Hbuf.
  destruct (der_read_len_inv sig1 rlen body ltac:(lia) Hlen ltac:(lia))
    as [(c & -> & Hcv & _)|(k & octets & _ & _ & _ & _ & _ & Hbig)].
  - rewrite <- (byte_of_Z_val t), Htag, <- (byte_of_Z_val c), Hcv.
    rewrite <- Hcan, Hclen, Z2Nat.id by lia. do 2 f_equal.
    rewrite Hc. symmetry. apply firstn_skipn.
  - rewrite <- Hcan in Hl33. lia.
Qed.

(** X4: on a buffer of less than 2^31 bytes, a signature that parses to
    non-zero scalars (r, s) is the very byte string the serializer writes
    for (r, s): no other encoding of the pair is accepted. *)
Theorem ecdsa_sig_parse_canonical (rr0 rs0 : Scalar.scalar)
    (sig : list byte) (r s : Scalar.scalar) :
  Z.of_nat (length sig) < 2 ^ 31 ->
  ecdsa_sig_parse rr0 rs0 sig = (1, r, s) ->
  r <> 0 -> s <> 0 ->
  sig = der_sig_bytes r s.
Proof.
  intros Hbuf Hp Hr0 Hs0.
  destruct (ecdsa_sig_parse_inv _ _ _ _ _ Hp)
    as (c & sig1 & body & after_r & -> & Htag & Hlen & Hr & Hs).
  cbn [length] in Hbuf.
  destruct (der_int_bytes_length r) as [Hlr _].
  destruct (der_int_bytes_length s) as [Hls _].
  assert (Hb1 : Z.of_nat (length sig1) < 2 ^ 31) by lia.
  destruct (der_read_len_inv sig1 _ body Hb1 Hlen ltac:(lia))
    as [(c1 & -> & Hc1 & Hsmall)|(k & octets & -> & Hk & _ & _ & _ & Hbig)].
  - cbn [length] in Hb1.
    pose proof (der_parse_integer_canonical rr0 body r after_r
                  ltac:(lia) Hr Hr0) as Eb.
    assert (Ha : Z.of_nat (length after_r) < 2 ^ 31).
    { rewrite Eb in Hb1. cbn [length] in Hb1. rewrite length_app in Hb1.
      lia. }
    pose proof (der_parse_integer_canonical rs0 after_r s [] Ha Hs Hs0)
      as Ea.
    rewrite app_nil_r in Ea.
    rewrite <- (byte_of_Z_val c), Htag, <- (byte_of_Z_val c1), Hc1.
    unfold der_sig_bytes. cbn [app]. rewrite Eb at 2. rewrite Ea.
    f_equal. f_equal.
    rewrite Eb, Ea. cbn [length]. rewrite length_app. cbn [length].
    f_equal. lia.
  - exfalso.
    pose proof (der_parse_integer_canonical rr0 body r after_r) as Eb.
    cbn [length] in Hb1. rewrite length_app in Hb1.
    specialize (Eb ltac:(lia) Hr Hr0).
    assert (Ha : Z.of_nat (length after_r) < 2 ^ 31).
    { rewrite Eb in Hb1. cbn [length] in Hb1. rewrite length_app in Hb1.
      lia. }
    pose proof (der_parse_integer_canonical rs0 after_r s [] Ha Hs Hs0)
      as Ea.
    rewrite app_nil_r in Ea.
    rewrite Eb, Ea in Hbig. cbn [length] in Hbig.
    rewrite length_app in Hbig. cbn [length] in Hbig. lia.
Qed.

Lemma ecdsa_sig_parse_canonical_witness :
  ["048"%byte; "006"%byte; "002"%byte; "001"%byte; "005"%byte;
   "002"%byte; "001"%byte; "009"%byte] = der_sig_bytes 5 9.
Proof.
  apply (ecdsa_sig_parse_canonical 0 0
           ["048"%byte; "006"%byte; "002"%byte; "001"%byte; "005"%byte;
            "002"%byte; "001"%byte; "009"%byte] 5 9).
  - vm_compute. reflexivity.
  - reflexivity.
  - discriminate.
  - discriminate.
Defined.

(** A successful decode of a length is not disturbed by bytes appended to
    the buffer. *)
Lemma der_read_len_loop_app (lenleft : nat) :
  forall (ret : Z) (sig : list byte) (v : Z) (rest extra : list byte),
    (lenleft <= length sig)%nat ->
    der_read_len_loop lenleft ret sig = (v, rest) -> 0 <= v ->
    der_read_len_loop lenleft ret (sig ++ extra) = (v, rest ++ extra).
Proof.
  induction lenleft as [|l IH]; intros ret sig v rest extra Hlen Hrd Hv.
  - cbn [der_read_len_loop] in *.
    destruct (ret <? 128); inversion Hrd; subst; [lia | reflexivity].
  - destruct sig as [|b sig]; [simpl in Hlen; lia|].
    cbn [length] in Hlen. cbn [der_read_len_loop app] in *.
    unfold peek in *. cbn [nth tl length] in *. rewrite length_app.
    set (ret' := Z.lor (size_t_wrap (Z.shiftl ret 8)) (byte_val b)) in *.
    destruct (Z.gtb_spec (size_t_wrap (ret' + Z.of_nat (S l)))
                (Z.of_nat (S (length sig)))) as [Hgt|Hle].
    { inversion Hrd. lia. }
    destruct (Z.gtb_spec (size_t_wrap (ret' + Z.of_nat (S l)))
                (Z.of_nat (S (length sig + length extra)))) as [Hgt'|_];
      [lia|].
    apply IH; [lia | exact Hrd | exact Hv].
Qed.

Lemma der_read_len_app (sig : list byte) (v : Z) (rest extra : list byte) :
  der_read_len sig = (v, rest) -> 0 <= v ->
  der_read_len (sig ++ extra) = (v, rest ++ extra).
Proof.
  intros Hrd Hv. destruct sig as [|c sig1]; cbn [der_read_len app] in *.
  { inversion Hrd. lia. }
  pose proof (byte_val_range c) as Hc.
  destruct (Z.eqb_spec (byte_val c) 0xFF); [inversion Hrd; lia|].
  destruct (Z.eqb_spec (Z.land (byte_val c) 0x80) 0) as [Hlow|Hhigh].
  { inversion Hrd. reflexivity. }
  destruct (Z.eqb_spec (byte_val c) 0x80); [inversion Hrd; lia|].
  assert (H128 : 128 <= byte_val c).
  { rewrite byte_land_80 in Hhigh.
    destruct (Z.ltb_spec (byte_val c) 128); [contradiction | lia]. }
  destruct (byte_high_split c H128) as (_ & Hsplit & Hk).
  set (lenleft := Z.land (byte_val c) 0x7F) in *.
  rewrite length_app.
  destruct (Z.gtb_spec lenleft (Z.of_nat (length sig1)));
    [inversion Hrd; lia|].
  destruct (Z.gtb_spec lenleft (Z.of_nat (length sig1 + length extra)));
    [lia|].
  assert (Hpos : 1 <= lenleft) by lia.
  assert (Hpk : peek 0 (sig1 ++ extra) = peek 0 sig1).
  { destruct sig1; [cbn [length] in *; lia | reflexivity]. }
  rewrite Hpk.
  destruct (peek 0 sig1 =? 0); [inversion Hrd; lia|].
  destruct (lenleft >? sizeof_size_t); [inversion Hrd; lia|].
  apply der_read_len_loop_app; [lia | exact Hrd | exact Hv].
Qed.

(** X5: no accepted signature is a proper prefix of another accepted one.
    Of a byte string and the same string with more bytes appended, at most
    one parses: bytes after a valid signature make it invalid, and a valid
    signature cut short is invalid. *)
Theorem ecdsa_sig_parse_prefix_free (sig extra : list byte)
    (rr0 rs0 rr1 rs1 : Scalar.scalar) :
  extra <> [] ->
  fst (fst (ecdsa_sig_parse rr0 rs0 sig)) = 0
  \/ fst (fst (ecdsa_sig_parse rr1 rs1 (sig ++ extra))) = 0.
Proof.
  intros Hextra.
  destruct (ecdsa_sig_parse_flag rr0 rs0 sig) as [H0|(r & s & Hp)];
    [left; exact H0|]. right.
  destruct (ecdsa_sig_parse_inv _ _ _ _ _ Hp)
    as (c & sig1 & body & after_r & -> & Htag & Hlen & _ & _).
  pose proof (der_read_len_app sig1 _ body extra Hlen ltac:(lia)) as Happ.
  unfold ecdsa_sig_parse. cbn [app length Nat.eqb orb tl].
  unfold peek at 1. cbn [nth]. rewrite Htag. cbn [Z.eqb Pos.eqb negb].
  rewrite Happ, length_app.
  destruct (Z.ltb_spec (Z.of_nat (length body)) 0); [reflexivity|].
  destruct (Z.gtb_spec (Z.of_nat (length body))
              (Z.of_nat (length body + length extra))); [reflexivity|].
  cbn [orb].
  destruct (Z.eqb_spec (Z.of_nat (length body))
              (Z.of_nat (length body + length extra))) as [E|_];
    [|reflexivity].
  destruct extra; [contradiction | cbn [length] in E; lia].
Qed.

Lemma ecdsa_sig_parse_prefix_free_witness :
  fst (fst (ecdsa_sig_parse 0 0
              ["048"%byte; "006"%byte; "002"%byte; "001"%byte; "005"%byte;
               "002"%byte; "001"%byte; "009"%byte])) = 0
  \/ fst (fst (ecdsa_sig_parse 0 0
                 (["048"%byte; "006"%byte; "002"%byte; "001"%byte;
                   "005"%byte; "002"%byte; "001"%byte; "009"%byte]
                  ++ ["000"%byte]))) = 0.
Proof.
  apply (ecdsa_sig_parse_prefix_free
           ["048"%byte; "006"%byte; "002"%byte; "001"%byte; "005"%byte;
            "002"%byte; "001"%byte; "009"%byte] ["000"%byte] 0 0 0 0).
  discriminate.
Defined.

(** ** The serializer: what it writes and where *)

(** X6: when the capacity and the buffer have room, the serializer writes
    exactly the first [*size] bytes of the buffer, as 0x30, the body length,
    0x02, len(r-bytes), r-bytes, 0x02, len(s-bytes), s-bytes; the bytes of
    the buffer after them, and its length, are as they were. *)
Theorem ecdsa_sig_serialize_frame (sig : list byte) (size : Z)
    (ar as_ : Scalar.scalar) :
  der_sig_size ar as_ <= size ->
  der_sig_size ar as_ <= Z.of_nat (length sig) ->
  let sig' := snd (fst (ecdsa_sig_serialize sig size ar as_)) in
  let size' := Z.to_nat (snd (ecdsa_sig_serialize sig size ar as_)) in
  length sig' = length sig
  /\ firstn size' sig' =
     [byte_of_Z 0x30;
      byte_of_Z (4 + Z.of_nat (length (der_int_bytes as_))
                   + Z.of_nat (length (der_int_bytes ar)));
      byte_of_Z 0x02; byte_of_Z (Z.of_nat (length (der_int_bytes ar)))]
     ++ der_int_bytes ar
     ++ [byte_of_Z 0x02; byte_of_Z (Z.of_nat (length (der_int_bytes as_)))]
     ++ der_int_bytes as_
  /\ skipn size' sig' = skipn size' sig.
Proof.
  intros Hsize Hroom.
  destruct (ecdsa_sig_serialize_cases sig size ar as_) as (_ & _ & Hok).
  rewrite (Hok Hsize Hroom). cbn [fst snd]. cbn zeta.
  pose proof (der_sig_bytes_length ar as_) as Hlen.
  assert (E : Z.to_nat (der_sig_size ar as_) = length (der_sig_bytes ar as_))
    by lia.
  rewrite E. split; [|split].
  - rewrite length_app, length_skipn. lia.
  - rewrite firstn_app, firstn_all, Nat.sub_diag, firstn_O, app_nil_r.
    reflexivity.
  - rewrite skipn_app, skipn_all, Nat.sub_diag. reflexivity.
Qed.

Lemma ecdsa_sig_serialize_frame_witness :
  length (snd (fst (ecdsa_sig_serialize (repeat "255"%byte 10) 9 5 9)))
  = 10%nat
  /\ skipn 8 (snd (fst (ecdsa_sig_serialize (repeat "255"%byte 10) 9 5 9)))
     = ["255"%byte; "255"%byte].
Proof.
  destruct (ecdsa_sig_serialize_frame (repeat "255"%byte 10) 9 5 9)
    as (H1 & _ & H3).
  - vm_compute. discriminate.
  - vm_compute. discriminate.
  - split; [exact H1 | exact H3].
Defined.

(** X7: the contents octets the serializer writes for a value below 2^256
    are its minimal non-negative DER form: they denote the value, the high
    bit of the first octet is clear, and a leading zero octet stands only in
    front of an octet with its high bit set. *)
Theorem der_int_bytes_minimal (a : Scalar.scalar) :
  0 <= a < 2 ^ 256 ->
  be_decode (der_int_bytes a) = a
  /\ (1 <= length (der_int_bytes a))%nat
  /\ peek 0 (der_int_bytes a) < 0x80
  /\ ((1 < length (der_int_bytes a))%nat ->
      peek 0 (der_int_bytes a) = 0 -> 0x80 <= peek 1 (der_int_bytes a)).
Proof.
  intros Ha.
  destruct (der_int_bytes_is_canonical a) as [(H1 & H2 & H3) Hval].
  split; [|split; [exact H1 | split; [exact H2 | exact H3]]].
  rewrite Hval. unfold Scalar.get_b32. rewrite be_decode_encode.
  apply Z.mod_small. exact Ha.
Qed.

Lemma der_int_bytes_minimal_witness :
  be_decode (der_int_bytes 128%Z) = 128
  /\ (1 <= length (der_int_bytes 128%Z))%nat
  /\ peek 0 (der_int_bytes 128%Z) < 0x80
  /\ ((1 < length (der_int_bytes 128%Z))%nat ->
      peek 0 (der_int_bytes 128%Z) = 0 -> 0x80 <= peek 1 (der_int_bytes 128%Z)).
Proof.
  apply (der_int_bytes_minimal 128%Z). vm_compute.
  split; [discriminate | reflexivity].
Defined.

(** X8: serializing and then parsing is the identity on every pair of
    reduced scalars, zero and the high half of the range included. *)
Theorem ecdsa_sig_serialize_parse_all (sig : list byte) (size : Z)
    (r s rr0 rs0 : Scalar.scalar) :
  0 <= r < Scalar.n ->
  0 <= s < Scalar.n ->
  der_sig_size r s <= size ->
  der_sig_size r s <= Z.of_nat (length sig) ->
  ecdsa_sig_parse rr0 rs0
    (firstn (Z.to_nat (snd (ecdsa_sig_serialize sig size r s)))
       (snd (fst (ecdsa_sig_serialize sig size r s))))
  = (1, r, s).
Proof.
  intros Hr Hs Hsize Hroom.
  destruct (ecdsa_sig_serialize_cases sig size r s) as (_ & _ & Hok).
  rewrite (Hok Hsize Hroom). cbn [fst snd].
  rewrite <- der_sig_bytes_length, Nat2Z.id.
  rewrite firstn_app, firstn_all, Nat.sub_diag, firstn_O, app_nil_r.
  apply ecdsa_sig_parse_encoded; assumption.
Qed.

Lemma ecdsa_sig_serialize_parse_all_witness :
  ecdsa_sig_parse 7 7
    (firstn
       (Z.to_nat
          (snd (ecdsa_sig_serialize (repeat x00 72) 72 0 (Scalar.n - 1))))
       (snd (fst (ecdsa_sig_serialize (repeat x00 72) 72 0 (Scalar.n - 1)))))
  = (1, 0, Scalar.n - 1).
Proof.
  apply (ecdsa_sig_serialize_parse_all (repeat x00 72) 72 0 (Scalar.n - 1)
           7 7).
  - vm_compute. split; [discriminate | reflexivity].
  - vm_compute. split; [discriminate | reflexivity].
  - vm_compute. discriminate.
  - vm_compute. discriminate.
Defined.

(** ** The verifier against the affine x-coordinate *)

Lemma field_facts : 0 < Field.p /\ Scalar.n < Field.p < 2 * Scalar.n.
Proof. repeat split. Qed.

(** With z invertible mod p, the test a * z^2 = x (mod p) says that a is the
    affine x-coordinate x / z^2 (mod p). *)
Lemma jacobian_x_test (a x z zi : Z) :
  (z * zi) mod Field.p = 1 ->
  ((a * (z * z)) mod Field.p = x mod Field.p
   <-> a mod Field.p = (x * (zi * zi)) mod Field.p).
Proof.
  intros Hw. destruct field_facts as [Hp _].
  assert (Hone : forall t : Z, (t * (z * zi)) mod Field.p = t mod Field.p).
  { intros t. rewrite <- Z.mul_mod_idemp_r, Hw, Z.mul_1_r by lia.
    reflexivity. }
  split; intros H.
  - rewrite <- (Z.mul_mod_idemp_l x), <- H, Z.mul_mod_idemp_l by lia.
    replace (a * (z * z) * (zi * zi)) with (a * (z * zi) * (z * zi)) by ring.
    rewrite !Hone. reflexivity.
  - rewrite <- Z.mul_mod_idemp_l, H, Z.mul_mod_idemp_l by lia.
    replace (x * (zi * zi) * (z * z)) with (x * (z * zi) * (z * zi)) by ring.
    rewrite !Hone. reflexivity.
Qed.

Lemma mod_n_two_candidates (X r : Z) :
  0 <= X < 2 * Scalar.n -> 0 <= r < Scalar.n ->
  (X mod Scalar.n = r <-> X = r \/ X = r + Scalar.n).
Proof.
  intros HX Hr. pose proof scalar_n_pos as Hn. split.
  - intros H. pose proof (Z.div_mod X Scalar.n ltac:(lia)) as Hdm.
    assert (Hq : 0 <= X / Scalar.n < 2).
    { split; [apply Z.div_pos; lia | apply Z.div_lt_upper_bound; lia]. }
    assert (Hc : X / Scalar.n = 0 \/ X / Scalar.n = 1) by lia.
    destruct Hc as [E|E]; rewrite E in Hdm; lia.
  - intros [->| ->].
    + apply Z.mod_small. exact Hr.
    + replace (r + Scalar.n) with (r + 1 * Scalar.n) by lia.
      rewrite Z.mod_add by lia. apply Z.mod_small. exact Hr.
Qed.

Section VerifyAffine.
Import Field Group.

Variable ecmult_context : Type.
Variable ecmult :
  ecmult_context -> gej -> Scalar.scalar -> Scalar.scalar -> gej.

(** X9: for a reduced non-zero r and a non-zero s, when the z-coordinate of
    the recomputed point R' is invertible mod p, the verifier accepts
    exactly when the affine x-coordinate of R', x / z^2 mod p, reduced
    mod n, equals r: the two tests in Jacobian coordinates decide the
    comparison the comment in the source derives them from. *)
Theorem ecdsa_sig_verify_iff_affine_x (ctx : ecmult_context)
    (sigr sigs : Scalar.scalar) (pubkey : ge) (message : Scalar.scalar)
    (zi : fe) :
  let sn := Scalar.inverse_var sigs in
  let pr := ecmult ctx (gej_set_ge pubkey)
              (Scalar.mul sn sigr) (Scalar.mul sn message) in
  0 < sigr < Scalar.n ->
  sigs <> 0 ->
  (gej_z pr * zi) mod p = 1 ->
  (ecdsa_sig_verify _ ecmult ctx sigr sigs pubkey message = 1
   <-> ((gej_x pr * (zi * zi)) mod p) mod Scalar.n = sigr).
Proof.
  intros sn pr Hr Hs Hz.
  destruct field_facts as [Hp Hnp]. destruct ecdsa_constants as [Hn Hpn].
  unfold ecdsa_sig_verify, Scalar.is_zero.
  destruct (Z.eqb_spec sigr 0); [lia|].
  destruct (Z.eqb_spec sigs 0); [contradiction|]. cbn [orb].
  fold sn. fold pr. clearbody pr. clear sn.
  assert (Hinf : gej_is_infinity pr = false).
  { unfold gej_is_infinity. apply Z.eqb_neq. intros Hz0.
    rewrite <- Z.mul_mod_idemp_l, Hz0 in Hz by lia.
    rewrite Z.mul_0_l, Z.mod_0_l in Hz by lia. discriminate Hz. }
  rewrite Hinf, Hpn, Hn.
  unfold fe_set_b32. rewrite get_b32_decode by lia.
  unfold gej_eq_x_var, fe_cmp_var, fe_add.
  set (X := (gej_x pr * (zi * zi)) mod p).
  assert (HX : 0 <= X < p) by (apply Z.mod_pos_bound; exact Hp).
  pose proof (mod_n_two_candidates X sigr ltac:(lia) ltac:(lia)) as Hcand.
  pose proof (jacobian_x_test sigr (gej_x pr) (gej_z pr) zi Hz) as T1.
  pose proof (jacobian_x_test (sigr + Scalar.n) (gej_x pr) (gej_z pr) zi Hz)
    as T2.
  fold X in T1, T2. rewrite (Z.mod_small sigr) in T1 by lia.
  destruct (Z.eqb_spec (sigr * (gej_z pr * gej_z pr) mod p)
              (gej_x pr mod p)) as [E1|E1].
  { split; [intros _|reflexivity]. apply Hcand. left.
    symmetry. apply T1. exact E1. }
  destruct (Z.compare_spec sigr (p - Scalar.n)) as [C|C|C];
    cbn [Z.geb Z.compare].
  - split; [discriminate|]. intros H. exfalso.
    apply Hcand in H. destruct H as [H|H]; [|lia].
    apply E1, T1. symmetry. exact H.
  - rewrite (Z.mod_small (sigr + Scalar.n)) in T2 by lia.
    destruct (Z.eqb_spec ((sigr + Scalar.n) * (gej_z pr * gej_z pr) mod p)
                (gej_x pr mod p)) as [E2|E2].
    + split; [intros _|reflexivity]. apply Hcand. right.
      symmetry. apply T2. exact E2.
    + split; [discriminate|]. intros H. exfalso.
      apply Hcand in H. destruct H as [H|H].
      * apply E1, T1. symmetry. exact H.
      * apply E2, T2. symmetry. exact H.
  - split; [discriminate|]. intros H. exfalso.
    apply Hcand in H. destruct H as [H|H]; [|lia].
    apply E1, T1. symmetry. exact H.
Qed.

End VerifyAffine.

Lemma ecdsa_sig_verify_iff_affine_x_witness :
  ecdsa_sig_verify unit ToyCurve.ecmult tt 1 1 (Group.mk_ge 0 1) 1 = 1.
Proof.
  apply (ecdsa_sig_verify_iff_affine_x unit ToyCurve.ecmult tt 1 1
           (Group.mk_ge 0 1) 1 1).
  - vm_compute. split; reflexivity.
  - discriminate.
  - vm_compute. reflexivity.
  - vm_compute. reflexivity.
Defined.

(** ** The signer's outputs *)

Lemma recid_range (overflow odd flip : bool) :
  let w0 := Z.lor (if overflow then 2 else 0) (if odd then 1 else 0) in
  let w := if flip then Z.lxor w0 1 else w0 in
  0 <= w <= 3
  /\ Z.testbit w 1 = overflow
  /\ (overflow = false -> w <= 1).
Proof.
  destruct overflow, odd, flip; cbn; repeat split; try lia; discriminate.
Qed.

Section SignOutputs.
Import Field Group.

Variable ecmult_gen_context : Type.
Variable ecmult_gen : ecmult_gen_context -> Scalar.scalar -> gej.
Variable ge_set_gej : gej -> ge.

(** X10: whenever the signer returns, with success or failure, the scalars
    it stored in r and s are reduced; a recovery id is stored exactly when
    one was requested, it lies in 0..3 and its bit 1 is the overflow flag of
    r, which the low-s flip does not touch; in a build with [VERIFY] the
    stored r is non-zero and the recovery id is 0 or 1. *)
Theorem ecdsa_sig_sign_outputs (VERIFY : bool) (ctx : ecmult_gen_context)
    (sigr0 sigs0 seckey message nonce : Scalar.scalar) (recid : option Z)
    (res : sign_result) :
  ecdsa_sig_sign _ ecmult_gen ge_set_gej VERIFY ctx sigr0 sigs0 seckey
    message nonce recid = Some res ->
  0 <= sign_sigr res < Scalar.n
  /\ 0 <= sign_sigs res < Scalar.n
  /\ (VERIFY = true -> sign_sigr res <> 0)
  /\ (recid = None -> sign_recid res = None)
  /\ (recid <> None ->
      exists w : Z,
        sign_recid res = Some w
        /\ 0 <= w <= 3
        /\ Z.testbit w 1
           = snd (sign_computed_r _ ecmult_gen ge_set_gej ctx nonce)
        /\ (VERIFY = true -> w <= 1)).
Proof.
  unfold ecdsa_sig_sign, VERIFY_CHECK, sign_computed_r, Scalar.set_b32.
  generalize (Scalar.inverse nonce). intros ninv.
  cbn [ge_x ge_y fst snd]. cbn zeta.
  set (v := be_decode
              (fe_get_b32
                 (fe_normalize (ge_x (ge_set_gej (ecmult_gen ctx nonce)))))).
  pose proof (scalar_mod_range v) as Hsigr.
  generalize dependent (v mod Scalar.n). intros sigr Hsigr.
  generalize (Scalar.n <=? v). intros overflow. clear v.
  generalize (fe_is_odd
                (fe_normalize (ge_y (ge_set_gej (ecmult_gen ctx nonce))))).
  intros odd.
  pose proof (scalar_mod_range
                (ninv * Scalar.add (Scalar.mul sigr seckey) message)) as Hs0.
  change ((ninv * Scalar.add (Scalar.mul sigr seckey) message) mod Scalar.n)
    with (Scalar.mul ninv (Scalar.add (Scalar.mul sigr seckey) message))
    in Hs0.
  revert Hs0.
  generalize (Scalar.mul ninv (Scalar.add (Scalar.mul sigr seckey) message)).
  intros s0 Hs0.
  assert (Hneg : 0 <= Scalar.negate s0 < Scalar.n)
    by apply scalar_mod_range.
  assert (Hz : VERIFY && negb (negb (Scalar.is_zero sigr)) = false ->
               VERIFY = true -> sigr <> 0).
  { intros H ->. cbn [andb] in H. rewrite negb_involutive in H.
    unfold Scalar.is_zero in H. apply Z.eqb_neq. exact H. }
  assert (Hov : VERIFY && negb (negb overflow) = false ->
                VERIFY = true -> overflow = false).
  { intros H ->. cbn [andb] in H. rewrite negb_involutive in H. exact H. }
  destruct (VERIFY && negb (negb (Scalar.is_zero sigr))); [discriminate|].
  destruct (VERIFY && negb (negb overflow)); [discriminate|].
  specialize (Hz eq_refl). specialize (Hov eq_refl).
  pose proof (recid_range overflow odd false) as R0.
  pose proof (recid_range overflow odd true) as R1.
  cbn zeta in R0, R1. cbn iota in R0, R1.
  destruct (Scalar.is_zero s0); [|destruct (Scalar.is_high s0)];
    intros E; injection E as <-; cbn [sign_sigr sign_sigs sign_recid].
  all: split; [exact Hsigr|]; split; [assumption|]; split; [exact Hz|].
  all: split; [intros ->; reflexivity|].
  all: intros Hreq; destruct recid as [old|]; [|contradiction].
  all: eexists; split; [reflexivity|].
  - destruct R0 as (A & B & C). repeat split; try apply A; try exact B.
    intros HV. apply C, Hov, HV.
  - destruct R1 as (A & B & C). repeat split; try apply A; try exact B.
    intros HV. apply C, Hov, HV.
  - destruct R0 as (A & B & C). repeat split; try apply A; try exact B.
    intros HV. apply C, Hov, HV.
Qed.

End SignOutputs.

Lemma ecdsa_sig_sign_outputs_witness :
  match
    ecdsa_sig_sign unit ToyCurve.ecmult_gen ToyCurve.ge_set_gej false tt
      0 0 7 4 1 (Some 0)
  with
  | Some res =>
      0 <= sign_sigs res < Scalar.n
      /\ exists w : Z, sign_recid res = Some w /\ 0 <= w <= 3
  | None => False
  end.
Proof.
  assert (Hret : ecdsa_sig_sign unit ToyCurve.ecmult_gen ToyCurve.ge_set_gej
                   false tt 0 0 7 4 1 (Some 0)
                 <> None) by (vm_compute; discriminate).
  destruct (ecdsa_sig_sign unit ToyCurve.ecmult_gen ToyCurve.ge_set_gej false
              tt 0 0 7 4 1 (Some 0))
    as [res|] eqn:E.
  - destruct (ecdsa_sig_sign_outputs unit ToyCurve.ecmult_gen
                ToyCurve.ge_set_gej false tt 0 0 7 4 1 (Some 0) res E)
      as (_ & H2 & _ & _ & H5).
    split; [exact H2|].
    destruct (H5 ltac:(discriminate)) as (w & Hw & Hrange & _).
    exists w. split; [exact Hw | exact Hrange].
  - exact (Hret eq_refl).
Defined.

(** ** From the signer to the wire and back *)

Section SignWire.
Import Field Group.

Variable ecmult_gen_context : Type.
Variable ecmult_gen : ecmult_gen_context -> Scalar.scalar -> gej.
Variable ge_set_gej : gej -> ge.

Lemma ecdsa_sig_sign_reduced (VERIFY : bool) (ctx : ecmult_gen_context)
    (sigr0 sigs0 seckey message nonce : Scalar.scalar) (recid : option Z)
    (res : sign_result) :
  ecdsa_sig_sign _ ecmult_gen ge_set_gej VERIFY ctx sigr0 sigs0 seckey
    message nonce recid = Some res ->
  0 <= sign_sigr res < Scalar.n /\ 0 <= sign_sigs res < Scalar.n.
Proof.
  unfold ecdsa_sig_sign, VERIFY_CHECK, Scalar.set_b32.
  generalize (Scalar.inverse nonce). intros ninv.
  cbn [ge_x ge_y fst snd]. cbn zeta.
  set (v := be_decode
              (fe_get_b32
                 (fe_normalize (ge_x (ge_set_gej (ecmult_gen ctx nonce)))))).
  pose proof (scalar_mod_range v) as Hsigr.
  generalize dependent (v mod Scalar.n). intros sigr Hsigr.
  generalize (Scalar.n <=? v). intros overflow. clear v.
  pose proof (scalar_mod_range
                (ninv * Scalar.add (Scalar.mul sigr seckey) message)) as Hs0.
  change ((ninv * Scalar.add (Scalar.mul sigr seckey) message) mod Scalar.n)
    with (Scalar.mul ninv (Scalar.add (Scalar.mul sigr seckey) message))
    in Hs0.
  revert Hs0.
  generalize (Scalar.mul ninv (Scalar.add (Scalar.mul sigr seckey) message)).
  intros s0 Hs0.
  assert (Hneg : 0 <= Scalar.negate s0 < Scalar.n)
    by apply scalar_mod_range.
  destruct (VERIFY && negb (negb (Scalar.is_zero sigr))); [discriminate|].
  destruct (VERIFY && negb (negb overflow)); [discriminate|].
  destruct (Scalar.is_zero s0); [|destruct (Scalar.is_high s0)];
    intros E; injection E as <-; cbn [sign_sigr sign_sigs];
    split; assumption.
Qed.

(** X11: whatever the signer returns in r and s can be put on the wire and
    read back: the serializer, given room, succeeds in at most 72 bytes and
    the parser returns exactly the signer's (r, s) from them. *)
Theorem ecdsa_sig_sign_serialize_parse (VERIFY : bool)
    (ctx : ecmult_gen_context)
    (sigr0 sigs0 seckey message nonce : Scalar.scalar) (recid : option Z)
    (res : sign_result) (sig : list byte) (size : Z)
    (rr0 rs0 : Scalar.scalar) :
  ecdsa_sig_sign _ ecmult_gen ge_set_gej VERIFY ctx sigr0 sigs0 seckey
    message nonce recid = Some res ->
  72 <= size ->
  72 <= Z.of_nat (length sig) ->
  let out := ecdsa_sig_serialize sig size (sign_sigr res) (sign_sigs res) in
  fst (fst out) = 1
  /\ 8 <= snd out <= 72
  /\ ecdsa_sig_parse rr0 rs0 (firstn (Z.to_nat (snd out)) (snd (fst out)))
     = (1, sign_sigr res, sign_sigs res).
Proof.
  intros Hsign Hsize Hroom.
  destruct (ecdsa_sig_sign_reduced _ _ _ _ _ _ _ _ _ Hsign) as [Hr Hs].
  clear Hsign. revert Hr Hs.
  generalize (sign_sigr res) (sign_sigs res). intros r s Hr Hs.
  destruct (der_int_bytes_length r) as [Hlr _].
  destruct (der_int_bytes_length s) as [Hls _].
  assert (Hreq : 8 <= der_sig_size r s <= 72) by (unfold der_sig_size; lia).
  destruct (ecdsa_sig_serialize_cases sig size r s) as (_ & _ & Hok).
  cbn zeta. rewrite (Hok ltac:(lia) ltac:(lia)). cbn [fst snd].
  split; [reflexivity|]. split; [exact Hreq|].
  rewrite <- der_sig_bytes_length, Nat2Z.id.
  rewrite firstn_app, firstn_all, Nat.sub_diag, firstn_O, app_nil_r.
  apply ecdsa_sig_parse_encoded; assumption.
Qed.

End SignWire.

Lemma ecdsa_sig_sign_serialize_parse_witness :
  match
    ecdsa_sig_sign unit ToyCurve.ecmult_gen ToyCurve.ge_set_gej false tt
      0 0 7 4 1 None
  with
  | Some res =>
      ecdsa_sig_parse 0 0
        (firstn
           (Z.to_nat
              (snd (ecdsa_sig_serialize (repeat x00 72) 72
                      (sign_sigr res) (sign_sigs res))))
           (snd (fst (ecdsa_sig_serialize (repeat x00 72) 72
                        (sign_sigr res) (sign_sigs res)))))
      = (1, sign_sigr res, sign_sigs res)
  | None => False
  end.
Proof.
  assert (Hret : ecdsa_sig_sign unit ToyCurve.ecmult_gen ToyCurve.ge_set_gej
                   false tt 0 0 7 4 1 None
                 <> None) by (vm_compute; discriminate).
  destruct (ecdsa_sig_sign unit ToyCurve.ecmult_gen ToyCurve.ge_set_gej false
              tt 0 0 7 4 1 None)
    as [res|] eqn:E.
  - apply (ecdsa_sig_sign_serialize_parse unit ToyCurve.ecmult_gen
             ToyCurve.ge_set_gej false tt 0 0 7 4
             1 None res (repeat x00 72) 72 0 0 E).
    + lia.
    + rewrite repeat_length. lia.
  - exact (Hret eq_refl).
Defined.
